(** * Laplacian-of-Gaussian kernels: a shallow embedding of
      [laplacian_of_gaussian.py]

    Python integers are [Z] (loop indices, which [range] only produces
    non-negative, are [nat]).  Python floats are idealised as the real
    numbers of the Standard Library: the embedding follows the source
    operation by operation, but computes each operation exactly.  It has
    no rounding, no overflow to [inf], no underflow to [0.0], no [NaN],
    and [**] never raises [OverflowError].  What Python does on a division
    by zero, on a read of a [None] cell and on an index out of range is
    kept: every operation that can raise returns in the error monad [M].

    The theorems below are therefore stated so that they do not depend on
    the exact value of an arithmetic result: they relate one result of the
    code to another that the code computes by the same operations, speak
    of the calls that return, or bound their arguments to magnitudes at
    which binary64 stays in range. *)

From Stdlib Require Import Reals Lra Lia ZArith List Bool Arith.
Import ListNotations.

Open Scope R_scope.

(** ** The error monad *)

(** [OverflowError] is what [**] raises when a binary64 result is out of
    range; no operation of this exact model produces it, and a statement
    that only says a call raises leaves the exception open. *)
Inductive pyerr : Type :=
| ZeroDivisionError
| OverflowError
| TypeError
| IndexError
| ComplexResult.

Inductive M (A : Type) : Type :=
| Ok (a : A)
| Raise (e : pyerr).

Arguments Ok {A} a.
Arguments Raise {A} e.

Definition bind {A B : Type} (m : M A) (f : A -> M B) : M B :=
  match m with
  | Ok a => f a
  | Raise e => Raise e
  end.

Notation "x <- m ;; k" := (bind m (fun x => k))
  (at level 61, m at next level, right associativity).

(** ** Arithmetic that can raise *)

(** [a / b]: Python raises [ZeroDivisionError] on a zero divisor, for
    floats as for integers. *)
Definition pdiv (a b : R) : M R :=
  if Req_EM_T b 0 then Raise ZeroDivisionError else Ok (a / b).

(** [b ** e] on floats.  A positive base is [exp (e * ln b)]; base zero
    gives 0, 1 or [ZeroDivisionError] by the sign of the exponent.  For a
    negative base Python answers with a complex number as soon as the
    exponent is not an integer; the real-valued model stops there with
    [ComplexResult] (no call of this file reaches that branch). *)
Definition float_pow (b e : R) : M R :=
  if Rlt_dec 0 b then Ok (Rpower b e)
  else if Req_EM_T b 0 then
    if Rlt_dec 0 e then Ok 0
    else if Req_EM_T e 0 then Ok 1
    else Raise ZeroDivisionError
  else Raise ComplexResult.

(** [m.e] *)
Definition m_e : R := exp 1.

(** ** The evaluators *)

(** Lines 13-17. *)
Definition gaussian (x y s u1 u2 : R) : M R :=
  q <- pdiv (- ((x - u1) ^ 2 + (y - u2) ^ 2)) (2 * s ^ 2) ;;
  output <- float_pow m_e q ;;
  d <- float_pow ((2 * PI) ^ 2 * s ^ 4) (1 / 2) ;;
  pdiv output d.

(** Lines 30-36. *)
Definition laplacian (x y s u1 u2 : R) : M R :=
  output <- gaussian x y s u1 u2 ;;
  q <- pdiv ((x - u1) ^ 2 + (y - u2) ^ 2) (s ^ 2) ;;
  let output := output * (q - 2) in
  pdiv output (s ^ 2).

(** ** Loops *)

(** [range(n)]: empty for [n <= 0]. *)
Definition range (n : Z) : list nat := seq 0 (Z.to_nat n).

(** [for i in l: s = body(i, s)], stopping at the first exception. *)
Fixpoint for_each {S : Type} (l : list nat) (body : nat -> S -> M S) (s : S) : M S :=
  match l with
  | [] => Ok s
  | i :: l' => s' <- body i s ;; for_each l' body s'
  end.

Definition for_range {S : Type} (n : Z) (body : nat -> S -> M S) (s : S) : M S :=
  for_each (range n) body s.

(** ** The kernel: a list of rows of cells, a cell being [None] until it
    is written *)

Definition cell : Type := option R.
Definition matrix : Type := list (list cell).

(** [l[i] = v] *)
Fixpoint list_set {A : Type} (l : list A) (i : nat) (v : A) : M (list A) :=
  match l, i with
  | [], _ => Raise IndexError
  | _ :: t, O => Ok (v :: t)
  | h :: t, S i' => t' <- list_set t i' v ;; Ok (h :: t')
  end.

(** Reading [kernel[i][j]] as a number: a [None] cell cannot enter the
    arithmetic that follows every read in the source. *)
Definition load (k : matrix) (i j : nat) : M R :=
  match nth_error k i with
  | None => Raise IndexError
  | Some row =>
      match nth_error row j with
      | None => Raise IndexError
      | Some None => Raise TypeError
      | Some (Some v) => Ok v
      end
  end.

(** [kernel[i][j] = v] *)
Definition store (k : matrix) (i j : nat) (v : R) : M matrix :=
  match nth_error k i with
  | None => Raise IndexError
  | Some row => row' <- list_set row j (Some v) ;; list_set k i row'
  end.

(** ** The kernel builder *)

(** Lines 86-102: the grid of raw values and their mean. *)
Definition sample_grid (side_length : Z) (domain s u1 u2 : R) : M (matrix * R) :=
  let kernel0 : matrix :=
    repeat (repeat None (Z.to_nat side_length)) (Z.to_nat side_length) in
  st <- for_range side_length (fun i st =>
          q <- pdiv (INR i) (IZR (side_length - 1)) ;;
          let y := - domain * (2 * q - 1) in
          for_range side_length (fun j '(kernel, mean) =>
            q <- pdiv (INR j) (IZR (side_length - 1)) ;;
            let x := domain * (2 * q - 1) in
            L <- laplacian x y s u1 u2 ;;
            kernel <- store kernel i j L ;;
            Ok (kernel, mean + L)) st)
        (kernel0, 0) ;;
  mean <- pdiv (snd st) (IZR (side_length ^ 2)) ;;
  Ok (fst st, mean).

(** Lines 106-108. *)
Definition zero_center_pass (side_length : Z) (mean : R) (kernel : matrix) : M matrix :=
  for_range side_length (fun i kernel =>
    for_range side_length (fun j kernel =>
      v <- load kernel i j ;;
      store kernel i j (v - mean)) kernel) kernel.

(** Lines 112-119. *)
Definition max_normalize_pass (side_length : Z) (kernel : matrix) : M matrix :=
  max_value <- for_range side_length (fun i max_value =>
      for_range side_length (fun j max_value =>
        v <- load kernel i j ;;
        Ok (Rmax max_value (Rabs v))) max_value) 0 ;;
  for_range side_length (fun i kernel =>
    for_range side_length (fun j kernel =>
      v <- load kernel i j ;;
      v' <- pdiv v max_value ;;
      store kernel i j v') kernel) kernel.

(** Lines 123-130. *)
Definition absolute_l1_normalize_pass (side_length : Z) (kernel : matrix) : M matrix :=
  total <- for_range side_length (fun i total =>
      for_range side_length (fun j total =>
        v <- load kernel i j ;;
        Ok (total + Rabs v)) total) 0 ;;
  for_range side_length (fun i kernel =>
    for_range side_length (fun j kernel =>
      v <- load kernel i j ;;
      v' <- pdiv v total ;;
      store kernel i j v') kernel) kernel.

Definition laplacian_of_gaussian_kernel (side_length : Z) (domain s u1 u2 : R)
    (zero_center max_normalize absolute_l1_normalize : bool) : M matrix :=
  st <- sample_grid side_length domain s u1 u2 ;;
  let mean := snd st in
  kernel <- (if zero_center then zero_center_pass side_length mean (fst st)
             else Ok (fst st)) ;;
  kernel <- (if max_normalize then max_normalize_pass side_length kernel
             else Ok kernel) ;;
  if absolute_l1_normalize then absolute_l1_normalize_pass side_length kernel
  else Ok kernel.

(** ** The parameter search *)

(** What the search keeps between candidates.  [values] is the formatted
    string of the source, kept as the pair it prints ([None] for the
    initial empty string). *)
Record search_state : Type := {
  values : option (R * R);
  min_diff : R;
  new_kernel : option matrix
}.

(** What one iteration computes before the comparison. *)
Record candidate : Type := {
  kernel_domain : R;
  kernel_sigma : R;
  cand_kernel : matrix;
  current_diff : R
}.

(** Lines 186-192. *)
Definition evaluate (search : Z) (i j : nat) : M candidate :=
  qj <- pdiv (INR j) (IZR (search - 1)) ;;
  let kernel_domain := 0.0001 + 4 * qj in
  qi <- pdiv (INR i) (IZR (search - 1)) ;;
  let kernel_sigma := 0.0001 + 4 * qi in
  kernel <- laplacian_of_gaussian_kernel 3 kernel_domain kernel_sigma 0 0
              true false false ;;
  k00 <- load kernel 0 0 ;;
  k01 <- load kernel 0 1 ;;
  k11 <- load kernel 1 1 ;;
  Ok {| kernel_domain := kernel_domain;
        kernel_sigma := kernel_sigma;
        cand_kernel := kernel;
        current_diff := Rabs (0.066 - k00) + Rabs (0.184 - k01) + Rabs (1 + k11) |}.

(** Lines 196-199. *)
Definition keep_min (st : search_state) (c : candidate) : search_state :=
  if Rlt_dec (current_diff c) (min_diff st)
  then {| values := Some (kernel_domain c, kernel_sigma c);
          min_diff := current_diff c;
          new_kernel := Some (cand_kernel c) |}
  else st.

(** Lines 177-199, over any way of evaluating the candidate at [(i, j)]:
    the reduction does not look inside the candidate beyond its score. *)
Definition search_loop (eval : nat -> nat -> M candidate) (search : Z) : M search_state :=
  for_range search (fun i st =>
    for_range search (fun j st =>
      c <- eval i j ;;
      Ok (keep_min st c)) st)
  {| values := None; min_diff := 100000; new_kernel := None |}.

(** [find_reference], up to the printing and plotting of the final state. *)
Definition find_reference : M search_state :=
  let search := 2000%Z in
  search_loop (evaluate search) search.

(** [view], up to the plotting of the kernel it builds (lines 139-141). *)
Definition view : M matrix :=
  laplacian_of_gaussian_kernel 201 8 2 0 0 true true false.

(** ** Closed forms used in the statements *)

Definition gaussian_val (x y s u1 u2 : R) : R :=
  exp (- ((x - u1) ^ 2 + (y - u2) ^ 2) / (2 * s ^ 2))
  / sqrt ((2 * PI) ^ 2 * s ^ 4).

Definition laplacian_val (x y s u1 u2 : R) : R :=
  gaussian_val x y s u1 u2
  * (((x - u1) ^ 2 + (y - u2) ^ 2) / s ^ 2 - 2) / s ^ 2.

(** ** Observations on kernels *)

(** The sample points of lines 91 and 94. *)
Definition grid_x (side_length : Z) (domain : R) (j : nat) : R :=
  domain * (2 * (INR j / IZR (side_length - 1)) - 1).

Definition grid_y (side_length : Z) (domain : R) (i : nat) : R :=
  - domain * (2 * (INR i / IZR (side_length - 1)) - 1).

Definition cell_at (k : matrix) (i j : nat) : option R :=
  match nth_error k i with
  | Some row => match nth_error row j with Some c => c | None => None end
  | None => None
  end.

(** The numbers of a kernel in row-major order. *)
Definition cells (k : matrix) : list R :=
  flat_map (fun row => flat_map (fun c : cell => match c with Some v => [v] | None => [] end) row) k.

Definition Rsum (l : list R) : R := fold_right Rplus 0 l.

Definition abs_sum (l : list R) : R := Rsum (map Rabs l).

Definition max_abs (l : list R) : R := fold_left (fun m v => Rmax m (Rabs v)) l 0.

Definition matrix_map (F : R -> R) (k : matrix) : matrix :=
  map (map (option_map F)) k.

(** The [n] by [n] kernel whose cell [(i, j)] is [c i j]. *)
Definition tabulate (n : nat) (c : nat -> nat -> cell) : matrix :=
  map (fun i => map (c i) (seq 0 n)) (seq 0 n).

Definition square (n : nat) (k : matrix) : Prop :=
  length k = n /\ Forall (fun row => length row = n) k.

(** The raw value of cell [(i, j)]. *)
Definition raw_val (side_length : Z) (domain s u1 u2 : R) (i j : nat) : R :=
  laplacian_val (grid_x side_length domain j) (grid_y side_length domain i) s u1 u2.

Definition raw_kernel (side_length : Z) (domain s u1 u2 : R) : matrix :=
  tabulate (Z.to_nat side_length)
    (fun i j => Some (raw_val side_length domain s u1 u2 i j)).

(** A kernel of [n] rows of [n] numbers: no cell is [None]. *)
Definition full (n : nat) (k : matrix) : Prop :=
  exists g : nat -> nat -> R, k = tabulate n (fun i j => Some (g i j)).

(** The mean of line 102. *)
Definition raw_mean (side_length : Z) (domain s u1 u2 : R) : R :=
  Rsum (cells (raw_kernel side_length domain s u1 u2)) / IZR (side_length ^ 2).

(** ** Observations on the search *)

(** Candidate [(a, b)] is evaluated before candidate [(i, j)]: rows first,
    then columns, both ascending. *)
Definition earlier (a b i j : nat) : Prop :=
  (a < i)%nat \/ (a = i /\ (b < j)%nat).

(** The state in which candidate [c] is the one kept. *)
Definition kept (c : candidate) : search_state :=
  {| values := Some (kernel_domain c, kernel_sigma c);
     min_diff := current_diff c;
     new_kernel := Some (cand_kernel c) |}.

Definition initial_state : search_state :=
  {| values := None; min_diff := 100000; new_kernel := None |}.

(** What holds of the state when the loops over an [n] by [n] grid of
    candidates [cand] stand before [(i, j)]: [min_diff] is below every
    score seen and never above its initial value, and the state is the
    initial one or keeps a candidate that beat all those before it. *)
Definition tracked (cand : nat -> nat -> candidate) (n i j : nat) (st : search_state) : Prop :=
  (forall a b, (a < n)%nat -> (b < n)%nat -> earlier a b i j ->
     min_diff st <= current_diff (cand a b)) /\
  min_diff st <= 100000 /\
  (st = initial_state \/
   exists a b, (a < n)%nat /\ (b < n)%nat /\ earlier a b i j /\ st = kept (cand a b) /\
     forall a' b', (a' < n)%nat -> (b' < n)%nat -> earlier a' b' a b ->
       current_diff (cand a b) < current_diff (cand a' b')).

(** What [evaluate] computes at [(i, j)]. *)
Definition evaluate_val (search : Z) (i j : nat) : candidate :=
  let kernel_domain := 0.0001 + 4 * (INR j / IZR (search - 1)) in
  let kernel_sigma := 0.0001 + 4 * (INR i / IZR (search - 1)) in
  let mean := raw_mean 3 kernel_domain kernel_sigma 0 0 in
  let raw := raw_val 3 kernel_domain kernel_sigma 0 0 in
  {| kernel_domain := kernel_domain;
     kernel_sigma := kernel_sigma;
     cand_kernel := matrix_map (fun v => v - mean) (raw_kernel 3 kernel_domain kernel_sigma 0 0);
     current_diff := Rabs (0.066 - (raw 0%nat 0%nat - mean))
                     + Rabs (0.184 - (raw 0%nat 1%nat - mean))
                     + Rabs (1 + (raw 1%nat 1%nat - mean)) |}.

(** Four candidates with one and the same score, told apart by the pair
    they report. *)
Definition tied_eval (i j : nat) : M candidate :=
  Ok {| kernel_domain := INR j; kernel_sigma := INR i;
        cand_kernel := []; current_diff := 1 |}.

(** ** Loop shapes shared by the passes *)

(** [for i: for j: kernel[i][j] = f(kernel[i][j])] *)
Definition update_loop (n : nat) (f : R -> M R) (k : matrix) : M matrix :=
  for_each (seq 0 n) (fun i k =>
    for_each (seq 0 n) (fun j k =>
      v <- load k i j ;;
      v' <- f v ;;
      store k i j v') k) k.

(** [for i: for j: acc = op(acc, kernel[i][j])] *)
Definition reduce_loop (n : nat) (op : R -> R -> R) (k : matrix) (acc : R) : M R :=
  for_each (seq 0 n) (fun i acc =>
    for_each (seq 0 n) (fun j acc =>
      v <- load k i j ;;
      Ok (op acc v)) acc) acc.

(** Cell [(a, b)] has been visited when the sweep stands before [(i, j)]. *)
Definition visited (i j a b : nat) : bool :=
  (a <? i)%nat || ((a =? i)%nat && (b <? j)%nat).

(** The values of [n] rows of [n] cells given by [g], in row-major order. *)
Definition row_major (n : nat) (g : nat -> nat -> R) : list R :=
  flat_map (fun a => map (g a) (seq 0 n)) (seq 0 n).

(** ** Basic facts *)

Lemma pdiv_ok (a b : R) : b <> 0 -> pdiv a b = Ok (a / b).
Proof.
  intros Hb. unfold pdiv. destruct (Req_EM_T b 0); [contradiction | reflexivity].
Qed.

Lemma pdiv_zero (a : R) : pdiv a 0 = Raise ZeroDivisionError.
Proof.
  unfold pdiv. destruct (Req_EM_T 0 0) as [_ | H]; [reflexivity | now elim H].
Qed.

Lemma float_pow_pos (b e : R) : 0 < b -> float_pow b e = Ok (Rpower b e).
Proof.
  intros Hb. unfold float_pow. destruct (Rlt_dec 0 b); [reflexivity | contradiction].
Qed.

Lemma m_e_pow (z : R) : float_pow m_e z = Ok (exp z).
Proof.
  unfold m_e. rewrite float_pow_pos by apply exp_pos.
  unfold Rpower. now rewrite ln_exp, Rmult_1_r.
Qed.

Lemma norm_base_pos (s : R) : s <> 0 -> 0 < (2 * PI) ^ 2 * s ^ 4.
Proof.
  intros Hs. apply Rmult_lt_0_compat.
  - apply pow_lt. generalize PI_RGT_0. lra.
  - replace (s ^ 4) with ((s ^ 2) ^ 2) by ring.
    apply pow_lt. apply Rlt_0_sqr in Hs. unfold Rsqr in Hs. lra.
Qed.

Lemma sq_nonzero (s : R) : s <> 0 -> s ^ 2 <> 0.
Proof. intros Hs. now apply pow_nonzero. Qed.

Lemma gaussian_eval (x y s u1 u2 : R) :
  s <> 0 -> gaussian x y s u1 u2 = Ok (gaussian_val x y s u1 u2).
Proof.
  intros Hs. unfold gaussian, gaussian_val.
  assert (H2 : 2 * s ^ 2 <> 0) by (apply sq_nonzero in Hs; lra).
  rewrite (pdiv_ok _ _ H2). cbn [bind]. rewrite m_e_pow. cbn [bind].
  pose proof (norm_base_pos s Hs) as Hpos.
  rewrite (float_pow_pos _ _ Hpos). cbn [bind].
  replace (1 / 2) with (/ 2) by lra.
  rewrite (Rpower_sqrt _ Hpos).
  apply pdiv_ok. apply Rgt_not_eq. now apply sqrt_lt_R0.
Qed.

Lemma laplacian_eval (x y s u1 u2 : R) :
  s <> 0 -> laplacian x y s u1 u2 = Ok (laplacian_val x y s u1 u2).
Proof.
  intros Hs. unfold laplacian. rewrite (gaussian_eval _ _ _ _ _ Hs). cbn [bind].
  pose proof (sq_nonzero s Hs) as H2.
  rewrite (pdiv_ok _ _ H2). cbn [bind]. rewrite (pdiv_ok _ _ H2).
  reflexivity.
Qed.

(** ** Loop rules *)

Lemma for_each_app {S : Type} (l1 l2 : list nat) (body : nat -> S -> M S) (s : S) :
  for_each (l1 ++ l2) body s = s' <- for_each l1 body s ;; for_each l2 body s'.
Proof.
  revert s. induction l1 as [| i l1 IH]; intros s; cbn; [reflexivity |].
  destruct (body i s); cbn; [apply IH | reflexivity].
Qed.

(** A loop over [0 .. n-1] whose body keeps an invariant runs to the end. *)
Lemma for_each_seq_inv {S : Type} (P : nat -> S -> Prop)
    (body : nat -> S -> M S) (n : nat) (s0 : S) :
  P 0%nat s0 ->
  (forall i s, (i < n)%nat -> P i s -> exists s', body i s = Ok s' /\ P (Datatypes.S i) s') ->
  exists s', for_each (seq 0 n) body s0 = Ok s' /\ P n s'.
Proof.
  intros H0 Hstep. induction n as [| n IH].
  - exists s0. split; [reflexivity | assumption].
  - destruct IH as [s1 [E1 P1]].
    { intros i s Hi. apply Hstep. lia. }
    destruct (Hstep n s1 (Nat.lt_succ_diag_r n) P1) as [s2 [E2 P2]].
    exists s2. split; [| assumption].
    rewrite seq_S, for_each_app, E1. cbn. now rewrite E2.
Qed.

(** A loop whose first iteration raises, raises. *)
Lemma for_each_first_raise {S : Type} (body : nat -> S -> M S) (n : nat) (s0 : S) (e : pyerr) :
  (0 < n)%nat -> body 0%nat s0 = Raise e -> for_each (seq 0 n) body s0 = Raise e.
Proof.
  intros Hn Hb. destruct n as [| n]; [lia |]. cbn. now rewrite Hb.
Qed.

(** ** Lists and tabulated kernels *)

Lemma nth_error_map_seq {A : Type} (f : nat -> A) (a n i : nat) :
  (i < n)%nat -> nth_error (map f (seq a n)) i = Some (f (a + i)%nat).
Proof.
  revert a i. induction n as [| n IH]; intros a i Hi; [lia |].
  destruct i as [| i]; cbn.
  - now rewrite Nat.add_0_r.
  - rewrite IH by lia. f_equal. f_equal. lia.
Qed.

Lemma list_set_map_seq {A : Type} (f : nat -> A) (a n i : nat) (v : A) :
  (i < n)%nat ->
  list_set (map f (seq a n)) i v
  = Ok (map (fun b => if (b =? a + i)%nat then v else f b) (seq a n)).
Proof.
  revert a i. induction n as [| n IH]; intros a i Hi; [lia |].
  destruct i as [| i]; cbn.
  - rewrite Nat.add_0_r, Nat.eqb_refl. f_equal. f_equal.
    apply map_ext_in. intros b Hb. apply in_seq in Hb.
    destruct (Nat.eqb_spec b a); [lia | reflexivity].
  - rewrite IH by lia. cbn [bind].
    replace (S a + i)%nat with (a + S i)%nat by lia.
    destruct (Nat.eqb_spec a (a + S i)); [lia | reflexivity].
Qed.

Lemma tabulate_ext (n : nat) (c c' : nat -> nat -> cell) :
  (forall i j, (i < n)%nat -> (j < n)%nat -> c i j = c' i j) ->
  tabulate n c = tabulate n c'.
Proof.
  intros H. unfold tabulate. apply map_ext_in. intros i Hi. apply in_seq in Hi.
  apply map_ext_in. intros j Hj. apply in_seq in Hj. apply H; lia.
Qed.

Lemma tabulate_row (n : nat) (c : nat -> nat -> cell) (i : nat) :
  (i < n)%nat -> nth_error (tabulate n c) i = Some (map (c i) (seq 0 n)).
Proof. intros Hi. unfold tabulate. now rewrite nth_error_map_seq. Qed.

Lemma cell_at_tabulate (n : nat) (c : nat -> nat -> cell) (i j : nat) :
  (i < n)%nat -> (j < n)%nat -> cell_at (tabulate n c) i j = c i j.
Proof.
  intros Hi Hj. unfold cell_at.
  now rewrite tabulate_row, nth_error_map_seq.
Qed.

Lemma load_tabulate (n : nat) (g : nat -> nat -> R) (i j : nat) :
  (i < n)%nat -> (j < n)%nat ->
  load (tabulate n (fun a b => Some (g a b))) i j = Ok (g i j).
Proof.
  intros Hi Hj. unfold load.
  now rewrite tabulate_row, nth_error_map_seq.
Qed.

Lemma store_tabulate (n : nat) (c : nat -> nat -> cell) (i j : nat) (v : R) :
  (i < n)%nat -> (j < n)%nat ->
  store (tabulate n c) i j v
  = Ok (tabulate n (fun a b => if (a =? i)%nat && (b =? j)%nat then Some v else c a b)).
Proof.
  intros Hi Hj. unfold store. rewrite tabulate_row by assumption.
  rewrite list_set_map_seq by assumption. cbn [bind].
  unfold tabulate at 1. rewrite list_set_map_seq by assumption.
  f_equal. unfold tabulate. apply map_ext_in. intros a Ha.
  cbn [Nat.add]. destruct (Nat.eqb_spec a i) as [-> | Hne]; cbn [andb].
  - apply map_ext. intros b. reflexivity.
  - reflexivity.
Qed.

Lemma repeat_map_seq {A : Type} (x : A) (a n : nat) :
  repeat x n = map (fun _ => x) (seq a n).
Proof.
  revert a. induction n as [| n IH]; intros a; cbn; [reflexivity |].
  now rewrite <- IH.
Qed.

Lemma tabulate_None (n : nat) :
  repeat (repeat (@None R) n) n = tabulate n (fun _ _ => None).
Proof.
  unfold tabulate. rewrite (repeat_map_seq (repeat None n) 0 n).
  apply map_ext. intros _. apply repeat_map_seq.
Qed.

Lemma square_tabulate (n : nat) (c : nat -> nat -> cell) : square n (tabulate n c).
Proof.
  unfold square, tabulate. split.
  - now rewrite length_map, length_seq.
  - apply Forall_forall. intros row Hrow. apply in_map_iff in Hrow.
    destruct Hrow as [i [<- _]]. now rewrite length_map, length_seq.
Qed.

Lemma matrix_map_tabulate (F : R -> R) (n : nat) (g : nat -> nat -> R) :
  matrix_map F (tabulate n (fun i j => Some (g i j)))
  = tabulate n (fun i j => Some (F (g i j))).
Proof.
  unfold matrix_map, tabulate. rewrite map_map. apply map_ext. intros i.
  now rewrite map_map.
Qed.

(** ** Sweeps over the grid *)

Lemma sweep_inv {S : Type} (P : nat -> nat -> S -> Prop)
    (outer : nat -> S -> M S) (inner : nat -> nat -> S -> M S) (n : nat) (s0 : S) :
  (forall i s, (i < n)%nat -> outer i s = for_each (seq 0 n) (inner i) s) ->
  P 0%nat 0%nat s0 ->
  (forall i j s, (i < n)%nat -> (j < n)%nat -> P i j s ->
     exists s', inner i j s = Ok s' /\ P i (Datatypes.S j) s') ->
  (forall i s, (i < n)%nat -> P i n s -> P (Datatypes.S i) 0%nat s) ->
  exists s', for_each (seq 0 n) outer s0 = Ok s' /\ P n 0%nat s'.
Proof.
  intros Hout H0 Hstep Hrow.
  apply (for_each_seq_inv (fun i s => P i 0%nat s)); [assumption |].
  intros i s Hi Hs. rewrite (Hout i s Hi).
  destruct (for_each_seq_inv (fun j s' => P i j s') (inner i) n s Hs) as [s' [E Hs']].
  - intros j s1 Hj H1. now apply Hstep.
  - exists s'. split; [assumption | now apply Hrow].
Qed.

Ltac visited_cases :=
  unfold visited;
  repeat match goal with
  | |- context [(?a <? ?b)%nat] => destruct (Nat.ltb_spec a b)
  | |- context [(?a =? ?b)%nat] => destruct (Nat.eqb_spec a b)
  end; cbn [orb andb]; try reflexivity; try lia.

Lemma update_loop_tabulate (n : nat) (f : R -> M R) (F : R -> R) (g : nat -> nat -> R) :
  (forall v, f v = Ok (F v)) ->
  update_loop n f (tabulate n (fun i j => Some (g i j)))
  = Ok (tabulate n (fun i j => Some (F (g i j)))).
Proof.
  intros Hf. unfold update_loop.
  destruct (sweep_inv
    (fun i j k => k = tabulate n (fun a b =>
       Some (if visited i j a b then F (g a b) else g a b)))
    (fun i k => for_each (seq 0 n) (fun j k =>
       v <- load k i j ;; v' <- f v ;; store k i j v') k)
    (fun i j k => v <- load k i j ;; v' <- f v ;; store k i j v')
    n (tabulate n (fun i j => Some (g i j)))) as [k' [E ->]].
  - reflexivity.
  - apply tabulate_ext. intros a b _ _. visited_cases.
  - intros i j k Hi Hj ->.
    rewrite (load_tabulate n (fun a b => if visited i j a b then F (g a b) else g a b))
      by assumption.
    cbn [bind]. rewrite Hf. cbn [bind]. rewrite store_tabulate by assumption.
    eexists. split; [reflexivity |].
    apply tabulate_ext. intros a b Ha Hb. visited_cases.
    subst. reflexivity.
  - intros i k Hi ->. apply tabulate_ext. intros a b Ha Hb. visited_cases.
  - rewrite E. f_equal. apply tabulate_ext. intros a b Ha Hb. visited_cases.
Qed.

Lemma update_loop_raise (n : nat) (f : R -> M R) (e : pyerr) (g : nat -> nat -> R) :
  (0 < n)%nat -> (forall v, f v = Raise e) ->
  update_loop n f (tabulate n (fun i j => Some (g i j))) = Raise e.
Proof.
  intros Hn Hf. unfold update_loop.
  apply for_each_first_raise; [assumption |].
  apply for_each_first_raise; [assumption |].
  rewrite load_tabulate by assumption. cbn [bind]. now rewrite Hf.
Qed.

Lemma reduce_loop_tabulate (n : nat) (op : R -> R -> R) (g : nat -> nat -> R) (acc : R) :
  reduce_loop n op (tabulate n (fun i j => Some (g i j))) acc
  = Ok (fold_left op (row_major n g) acc).
Proof.
  unfold reduce_loop.
  set (k := tabulate n (fun i j => Some (g i j))).
  destruct (sweep_inv
    (fun i j a => a = fold_left op
       (flat_map (fun a => map (g a) (seq 0 n)) (seq 0 i) ++ map (g i) (seq 0 j)) acc)
    (fun i a => for_each (seq 0 n) (fun j a => v <- load k i j ;; Ok (op a v)) a)
    (fun i j a => v <- load k i j ;; Ok (op a v))
    n acc) as [a' [E ->]].
  - reflexivity.
  - reflexivity.
  - intros i j a Hi Hj ->. unfold k. rewrite load_tabulate by assumption.
    cbn [bind]. eexists. split; [reflexivity |].
    rewrite seq_S, map_app, app_assoc, (fold_left_app op _ (map (g i) [_])).
    reflexivity.
  - intros i a Hi ->. rewrite seq_S, flat_map_app. cbn [flat_map seq map].
    now rewrite !app_nil_r.
  - rewrite E. cbn [seq map]. now rewrite app_nil_r.
Qed.

Lemma cells_tabulate (n : nat) (g : nat -> nat -> R) :
  cells (tabulate n (fun i j => Some (g i j))) = row_major n g.
Proof.
  unfold cells, tabulate, row_major.
  assert (Hrow : forall (h : nat -> R) (cols : list nat),
    flat_map (fun c : cell => match c with Some v => [v] | None => [] end)
      (map (fun b => Some (h b)) cols) = map h cols).
  { intros h cols. induction cols as [| b cols IH]; cbn; [reflexivity | now rewrite IH]. }
  assert (Hall : forall rows cols : list nat,
    flat_map (fun row => flat_map
                (fun c : cell => match c with Some v => [v] | None => [] end) row)
      (map (fun i => map (fun j => Some (g i j)) cols) rows)
    = flat_map (fun a => map (g a) cols) rows).
  { intros rows cols. induction rows as [| a rows IH]; cbn; [reflexivity |].
    now rewrite IH, Hrow. }
  apply Hall.
Qed.

Lemma cells_matrix_map (F : R -> R) (k : matrix) :
  cells (matrix_map F k) = map F (cells k).
Proof.
  unfold cells, matrix_map.
  induction k as [| row k IH]; cbn; [reflexivity |].
  rewrite map_app, IH. f_equal.
  induction row as [| c row IHr]; cbn; [reflexivity |].
  rewrite map_app, IHr. now destruct c.
Qed.

Lemma length_row_major (n : nat) (g : nat -> nat -> R) :
  length (row_major n g) = (n * n)%nat.
Proof.
  unfold row_major.
  assert (H : forall rows cols : list nat,
    length (flat_map (fun a => map (g a) cols) rows) = (length rows * length cols)%nat).
  { intros rows cols. induction rows as [| a rows IH]; cbn; [reflexivity |].
    now rewrite length_app, length_map, IH. }
  now rewrite H, length_seq.
Qed.

(** ** Sums, maxima *)

Lemma fold_left_Rplus (l : list R) (a : R) : fold_left Rplus l a = a + Rsum l.
Proof.
  unfold Rsum. revert a. induction l as [| v l IH]; intros a; cbn [fold_left fold_right].
  - lra.
  - rewrite IH. lra.
Qed.

(** ** The sampling phase *)

Lemma IZR_pred_nonzero (n : Z) : (2 <= n)%Z -> IZR (n - 1) <> 0.
Proof. intros Hn H. apply eq_IZR_R0 in H. lia. Qed.

Lemma IZR_sq_nonzero (n : Z) : (2 <= n)%Z -> IZR (n ^ 2) <> 0.
Proof. intros Hn H. apply eq_IZR_R0 in H. nia. Qed.

Lemma sample_grid_eval (n : Z) (d s u1 u2 : R) :
  (2 <= n)%Z -> s <> 0 ->
  sample_grid n d s u1 u2
  = Ok (raw_kernel n d s u1 u2,
        Rsum (cells (raw_kernel n d s u1 u2)) / IZR (n ^ 2)).
Proof.
  intros Hn Hs. unfold sample_grid, for_range, range, raw_kernel.
  set (N := Z.to_nat n). set (g := raw_val n d s u1 u2).
  pose proof (IZR_pred_nonzero n Hn) as HD.
  rewrite tabulate_None.
  destruct (sweep_inv
    (fun i j (st : matrix * R) => st =
       (tabulate N (fun a b => if visited i j a b then Some (g a b) else None),
        fold_left Rplus
          (flat_map (fun a => map (g a) (seq 0 N)) (seq 0 i) ++ map (g i) (seq 0 j)) 0))
    (fun i st =>
       q <- pdiv (INR i) (IZR (n - 1)) ;;
       let y := - d * (2 * q - 1) in
       for_each (seq 0 N) (fun j '(kernel, mean) =>
         q <- pdiv (INR j) (IZR (n - 1)) ;;
         let x := d * (2 * q - 1) in
         L <- laplacian x y s u1 u2 ;;
         kernel <- store kernel i j L ;;
         Ok (kernel, mean + L)) st)
    (fun i j '(kernel, mean) =>
       q <- pdiv (INR j) (IZR (n - 1)) ;;
       let x := d * (2 * q - 1) in
       L <- laplacian x (- d * (2 * (INR i / IZR (n - 1)) - 1)) s u1 u2 ;;
       kernel <- store kernel i j L ;;
       Ok (kernel, mean + L))
    N (tabulate N (fun _ _ => None), 0)) as [st [E ->]].
  - intros i st Hi. rewrite (pdiv_ok _ _ HD). reflexivity.
  - f_equal. apply tabulate_ext. intros a b _ _. visited_cases.
  - intros i j st Hi Hj ->. cbn beta iota.
    rewrite (pdiv_ok _ _ HD). cbn [bind]. cbv zeta.
    rewrite (laplacian_eval _ _ _ _ _ Hs). cbn [bind].
    rewrite store_tabulate by assumption. cbn [bind].
    eexists. split; [reflexivity |]. f_equal.
    + apply tabulate_ext. intros a b Ha Hb. visited_cases. subst. reflexivity.
    + rewrite seq_S, map_app, app_assoc, (fold_left_app Rplus _ (map (g i) [_])).
      reflexivity.
  - intros i st Hi ->. f_equal.
    + apply tabulate_ext. intros a b Ha Hb. visited_cases.
    + rewrite seq_S, flat_map_app. cbn [flat_map seq map]. now rewrite !app_nil_r.
  - cbv zeta in E |- *. rewrite E. cbn [bind snd fst].
    rewrite (pdiv_ok _ _ (IZR_sq_nonzero n Hn)). cbn [bind].
    f_equal. f_equal.
    + apply tabulate_ext. intros a b Ha Hb. visited_cases.
    + cbn [seq map]. rewrite app_nil_r, fold_left_Rplus, cells_tabulate.
      unfold row_major. lra.
Qed.

Lemma Rabs_div_pos (v c : R) : 0 < c -> Rabs (v / c) = Rabs v / c.
Proof.
  intros Hc. unfold Rdiv. rewrite Rabs_mult. f_equal.
  apply Rabs_pos_eq. left. now apply Rinv_0_lt_compat.
Qed.

Lemma Rmax_div_pos (a b c : R) : 0 < c -> Rmax (a / c) (b / c) = Rmax a b / c.
Proof.
  intros Hc. pose proof (Rinv_0_lt_compat c Hc) as Hi.
  unfold Rmax, Rdiv.
  destruct (Rle_dec (a * / c) (b * / c)) as [H1 | H1];
    destruct (Rle_dec a b) as [H2 | H2]; try reflexivity.
  - exfalso. apply H2. apply (Rmult_le_reg_r (/ c)); assumption.
  - exfalso. apply H1. apply Rmult_le_compat_r; [lra | assumption].
Qed.

Lemma fold_max_ge (l : list R) (a : R) :
  a <= fold_left (fun m v => Rmax m (Rabs v)) l a.
Proof.
  revert a. induction l as [| v l IH]; intros a; cbn [fold_left]; [lra |].
  eapply Rle_trans; [apply (Rmax_l a (Rabs v)) | apply IH].
Qed.

Lemma fold_max_bound (l : list R) (a v : R) :
  In v l -> Rabs v <= fold_left (fun m v => Rmax m (Rabs v)) l a.
Proof.
  revert a. induction l as [| w l IH]; intros a Hin; [contradiction |].
  cbn [fold_left]. destruct Hin as [-> | Hin].
  - eapply Rle_trans; [apply (Rmax_r a (Rabs v)) | apply fold_max_ge].
  - now apply IH.
Qed.


Lemma fold_max_scale (c : R) (l : list R) (a : R) :
  0 < c ->
  fold_left (fun m v => Rmax m (Rabs v)) (map (fun v => v / c) l) (a / c)
  = fold_left (fun m v => Rmax m (Rabs v)) l a / c.
Proof.
  intros Hc. revert a. induction l as [| w l IH]; intros a; cbn [map fold_left].
  - reflexivity.
  - rewrite (Rabs_div_pos _ _ Hc), (Rmax_div_pos _ _ _ Hc). apply IH.
Qed.

Lemma max_abs_nonneg (l : list R) : 0 <= max_abs l.
Proof. apply fold_max_ge. Qed.

Lemma max_abs_bound (l : list R) (v : R) : In v l -> Rabs v <= max_abs l.
Proof. apply fold_max_bound. Qed.


Lemma max_abs_normalized (l : list R) :
  max_abs l <> 0 -> max_abs (map (fun v => v / max_abs l) l) = 1.
Proof.
  intros Hne. pose proof (max_abs_nonneg l) as H0.
  assert (Hpos : 0 < max_abs l) by lra.
  unfold max_abs at 1. replace 0 with (0 / max_abs l) at 1 by (unfold Rdiv; ring).
  rewrite (fold_max_scale _ _ _ Hpos). fold (max_abs l). now field.
Qed.

Lemma fold_abs_sum (l : list R) (a : R) :
  fold_left (fun t v => t + Rabs v) l a = a + abs_sum l.
Proof.
  unfold abs_sum, Rsum. revert a.
  induction l as [| v l IH]; intros a; cbn [fold_left map fold_right].
  - lra.
  - rewrite IH. lra.
Qed.

(** ** The passes on a full kernel *)

Lemma full_matrix_map (F : R -> R) (n : nat) (k : matrix) :
  full n k -> full n (matrix_map F k).
Proof.
  intros [g ->]. exists (fun i j => F (g i j)). apply matrix_map_tabulate.
Qed.

Lemma full_raw_kernel (n : Z) (d s u1 u2 : R) :
  full (Z.to_nat n) (raw_kernel n d s u1 u2).
Proof. now exists (raw_val n d s u1 u2). Qed.

Lemma zero_center_pass_full (n : Z) (mean : R) (k : matrix) :
  full (Z.to_nat n) k ->
  zero_center_pass n mean k = Ok (matrix_map (fun v => v - mean) k).
Proof.
  intros [g ->]. rewrite matrix_map_tabulate.
  change (zero_center_pass n mean (tabulate (Z.to_nat n) (fun i j => Some (g i j))))
    with (update_loop (Z.to_nat n) (fun v => Ok (v - mean))
            (tabulate (Z.to_nat n) (fun i j => Some (g i j)))).
  now apply (update_loop_tabulate _ _ (fun v => v - mean)).
Qed.

Lemma max_normalize_pass_split (n : Z) (k : matrix) :
  max_normalize_pass n k
  = max_value <- reduce_loop (Z.to_nat n) (fun m v => Rmax m (Rabs v)) k 0 ;;
    update_loop (Z.to_nat n) (fun v => pdiv v max_value) k.
Proof. reflexivity. Qed.

Lemma absolute_l1_normalize_pass_split (n : Z) (k : matrix) :
  absolute_l1_normalize_pass n k
  = total <- reduce_loop (Z.to_nat n) (fun t v => t + Rabs v) k 0 ;;
    update_loop (Z.to_nat n) (fun v => pdiv v total) k.
Proof. reflexivity. Qed.

Lemma max_normalize_pass_full (n : Z) (k : matrix) :
  full (Z.to_nat n) k -> max_abs (cells k) <> 0 ->
  max_normalize_pass n k = Ok (matrix_map (fun v => v / max_abs (cells k)) k).
Proof.
  intros [g ->] Hne. rewrite max_normalize_pass_split, reduce_loop_tabulate.
  cbn [bind]. rewrite cells_tabulate in Hne |- *. fold (max_abs (row_major (Z.to_nat n) g)).
  rewrite matrix_map_tabulate.
  apply (update_loop_tabulate _ _ (fun v => v / max_abs (row_major (Z.to_nat n) g))).
  intros v. now apply pdiv_ok.
Qed.

Lemma max_normalize_pass_zero (n : Z) (k : matrix) :
  (0 < n)%Z -> full (Z.to_nat n) k -> max_abs (cells k) = 0 ->
  max_normalize_pass n k = Raise ZeroDivisionError.
Proof.
  intros Hn [g ->] Hz. rewrite max_normalize_pass_split, reduce_loop_tabulate.
  cbn [bind]. rewrite cells_tabulate in Hz. fold (max_abs (row_major (Z.to_nat n) g)).
  rewrite Hz. apply update_loop_raise; [lia |]. intros v. apply pdiv_zero.
Qed.

Lemma absolute_l1_normalize_pass_full (n : Z) (k : matrix) :
  full (Z.to_nat n) k -> abs_sum (cells k) <> 0 ->
  absolute_l1_normalize_pass n k
  = Ok (matrix_map (fun v => v / abs_sum (cells k)) k).
Proof.
  intros [g ->] Hne. rewrite absolute_l1_normalize_pass_split, reduce_loop_tabulate.
  cbn [bind]. rewrite cells_tabulate in Hne |- *. rewrite fold_abs_sum, Rplus_0_l.
  rewrite matrix_map_tabulate.
  apply (update_loop_tabulate _ _ (fun v => v / abs_sum (row_major (Z.to_nat n) g))).
  intros v. now apply pdiv_ok.
Qed.

Lemma absolute_l1_normalize_pass_zero (n : Z) (k : matrix) :
  (0 < n)%Z -> full (Z.to_nat n) k -> abs_sum (cells k) = 0 ->
  absolute_l1_normalize_pass n k = Raise ZeroDivisionError.
Proof.
  intros Hn [g ->] Hz. rewrite absolute_l1_normalize_pass_split, reduce_loop_tabulate.
  cbn [bind]. rewrite cells_tabulate in Hz. rewrite fold_abs_sum, Rplus_0_l, Hz.
  apply update_loop_raise; [lia |]. intros v. apply pdiv_zero.
Qed.

(** ** The builder, stage by stage *)

Lemma builder_unfold (n : Z) (d s u1 u2 : R) (zc mx l1 : bool) :
  (2 <= n)%Z -> s <> 0 ->
  laplacian_of_gaussian_kernel n d s u1 u2 zc mx l1
  = kernel <- (if zc then zero_center_pass n (raw_mean n d s u1 u2) (raw_kernel n d s u1 u2)
               else Ok (raw_kernel n d s u1 u2)) ;;
    kernel <- (if mx then max_normalize_pass n kernel else Ok kernel) ;;
    if l1 then absolute_l1_normalize_pass n kernel else Ok kernel.
Proof.
  intros Hn Hs. unfold laplacian_of_gaussian_kernel.
  now rewrite (sample_grid_eval n d s u1 u2 Hn Hs).
Qed.

Lemma builder_raw (n : Z) (d s u1 u2 : R) :
  (2 <= n)%Z -> s <> 0 ->
  laplacian_of_gaussian_kernel n d s u1 u2 false false false
  = Ok (raw_kernel n d s u1 u2).
Proof. intros Hn Hs. now rewrite builder_unfold. Qed.

Lemma builder_centered (n : Z) (d s u1 u2 : R) :
  (2 <= n)%Z -> s <> 0 ->
  laplacian_of_gaussian_kernel n d s u1 u2 true false false
  = Ok (matrix_map (fun v => v - raw_mean n d s u1 u2) (raw_kernel n d s u1 u2)).
Proof.
  intros Hn Hs. rewrite builder_unfold by assumption.
  now rewrite zero_center_pass_full by apply full_raw_kernel.
Qed.

(** Steps 5 and 6 run on what the earlier steps return. *)
Lemma builder_then_max (n : Z) (d s u1 u2 : R) (zc l1 : bool) :
  laplacian_of_gaussian_kernel n d s u1 u2 zc true l1
  = kernel <- laplacian_of_gaussian_kernel n d s u1 u2 zc false false ;;
    kernel <- max_normalize_pass n kernel ;;
    if l1 then absolute_l1_normalize_pass n kernel else Ok kernel.
Proof.
  unfold laplacian_of_gaussian_kernel.
  destruct (sample_grid n d s u1 u2) as [st | e]; cbn [bind]; [| reflexivity].
  destruct (if zc then _ else _) as [k | e]; reflexivity.
Qed.

Lemma builder_full (n : Z) (d s u1 u2 : R) (zc mx l1 : bool) (k : matrix) :
  (2 <= n)%Z -> s <> 0 ->
  laplacian_of_gaussian_kernel n d s u1 u2 zc mx l1 = Ok k ->
  exists F : R -> R, k = matrix_map F (raw_kernel n d s u1 u2).
Proof.
  intros Hn Hs. rewrite builder_unfold by assumption.
  pose proof (full_raw_kernel n d s u1 u2) as Hfull.
  assert (Hid : forall k0, k0 = matrix_map (fun v => v) k0).
  { intros k0. unfold matrix_map. rewrite <- (map_id k0) at 1. apply map_ext.
    intros row. rewrite <- (map_id row) at 1. apply map_ext. now intros [v |]. }
  assert (Hcomp : forall F G k0, matrix_map G (matrix_map F k0)
                                 = matrix_map (fun v => G (F v)) k0).
  { intros F G k0. unfold matrix_map. rewrite map_map. apply map_ext.
    intros row. rewrite map_map. apply map_ext. now intros [v |]. }
  set (raw := raw_kernel n d s u1 u2) in *.
  assert (H4 : exists F4, (if zc then zero_center_pass n (raw_mean n d s u1 u2) raw else Ok raw)
                          = Ok (matrix_map F4 raw)).
  { destruct zc.
    - eexists. now apply zero_center_pass_full.
    - exists (fun v => v). f_equal. apply Hid. }
  destruct H4 as [F4 ->]. cbn [bind].
  pose proof (full_matrix_map F4 _ _ Hfull) as Hfull4.
  set (k4 := matrix_map F4 raw) in *.
  assert (H5 : forall k5, (if mx then max_normalize_pass n k4 else Ok k4) = Ok k5 ->
                          exists F5, k5 = matrix_map F5 raw).
  { intros k5. destruct mx.
    - destruct (Req_EM_T (max_abs (cells k4)) 0) as [Hz | Hnz].
      + rewrite max_normalize_pass_zero by (assumption || lia). discriminate.
      + rewrite max_normalize_pass_full by assumption. intros [= <-].
        eexists. apply Hcomp.
    - intros [= <-]. now exists F4. }
  destruct (if mx then _ else _) as [k5 | e]; cbn [bind]; [| discriminate].
  destruct (H5 k5 eq_refl) as [F5 ->].
  pose proof (full_matrix_map F5 _ _ Hfull) as Hfull5.
  destruct l1.
  - destruct (Req_EM_T (abs_sum (cells (matrix_map F5 raw))) 0) as [Hz | Hnz].
    + rewrite absolute_l1_normalize_pass_zero by (assumption || lia). discriminate.
    + rewrite absolute_l1_normalize_pass_full by assumption. intros [= <-].
      eexists. apply Hcomp.
  - intros [= <-]. now exists F5.
Qed.

(** ** Facts on the raw kernel *)

Lemma to_nat_sq (n : Z) : (0 <= n)%Z -> INR (Z.to_nat n * Z.to_nat n) = IZR (n ^ 2).
Proof.
  intros Hn. rewrite INR_IZR_INZ, Nat2Z.inj_mul, Z2Nat.id by assumption.
  f_equal. ring.
Qed.

Lemma In_row_major (n : nat) (g : nat -> nat -> R) (i j : nat) :
  (i < n)%nat -> (j < n)%nat -> In (g i j) (row_major n g).
Proof.
  intros Hi Hj. unfold row_major. apply in_flat_map. exists i. split.
  - apply in_seq. lia.
  - apply in_map. apply in_seq. lia.
Qed.

Lemma In_cells_raw (n : Z) (d s u1 u2 : R) (i j : nat) :
  (i < Z.to_nat n)%nat -> (j < Z.to_nat n)%nat ->
  In (raw_val n d s u1 u2 i j) (cells (raw_kernel n d s u1 u2)).
Proof.
  intros Hi Hj. unfold raw_kernel. rewrite cells_tabulate.
  now apply In_row_major.
Qed.

Lemma laplacian_val_radial (x y x' y' s : R) :
  x ^ 2 + y ^ 2 = x' ^ 2 + y' ^ 2 ->
  laplacian_val x y s 0 0 = laplacian_val x' y' s 0 0.
Proof.
  intros H. unfold laplacian_val, gaussian_val.
  replace ((x - 0) ^ 2 + (y - 0) ^ 2) with (x ^ 2 + y ^ 2) by ring.
  replace ((x' - 0) ^ 2 + (y' - 0) ^ 2) with (x' ^ 2 + y' ^ 2) by ring.
  now rewrite H.
Qed.

Lemma grid_x_mirror (n : Z) (d : R) (j : nat) :
  (2 <= n)%Z -> (j < Z.to_nat n)%nat ->
  grid_x n d (Z.to_nat n - 1 - j) = - grid_x n d j.
Proof.
  intros Hn Hj. unfold grid_x.
  pose proof (IZR_pred_nonzero n Hn) as HD.
  assert (E : INR (Z.to_nat n - 1 - j) = IZR (n - 1) - INR j).
  { rewrite !minus_INR by lia. rewrite (INR_IZR_INZ (Z.to_nat n)), Z2Nat.id by lia.
    rewrite minus_IZR. cbn. lra. }
  rewrite E. field. exact HD.
Qed.

Lemma grid_y_x (n : Z) (d : R) (i : nat) : grid_y n d i = - grid_x n d i.
Proof. unfold grid_y, grid_x. ring. Qed.

Lemma raw_val_transpose (n : Z) (d s : R) (i j : nat) :
  raw_val n d s 0 0 i j = raw_val n d s 0 0 j i.
Proof.
  unfold raw_val. apply laplacian_val_radial. rewrite !grid_y_x. ring.
Qed.

Lemma cell_at_mapped_raw (F : R -> R) (n : Z) (d s u1 u2 : R) (i j : nat) :
  (i < Z.to_nat n)%nat -> (j < Z.to_nat n)%nat ->
  cell_at (matrix_map F (raw_kernel n d s u1 u2)) i j
  = Some (F (raw_val n d s u1 u2 i j)).
Proof.
  intros Hi Hj. unfold raw_kernel. rewrite matrix_map_tabulate.
  now rewrite cell_at_tabulate.
Qed.

(** ** Degenerate parameters *)

Lemma gaussian_sigma_zero (x y u1 u2 : R) :
  gaussian x y 0 u1 u2 = Raise ZeroDivisionError.
Proof.
  unfold gaussian. replace (2 * 0 ^ 2) with 0 by ring. now rewrite pdiv_zero.
Qed.

Lemma laplacian_sigma_zero (x y u1 u2 : R) :
  laplacian x y 0 u1 u2 = Raise ZeroDivisionError.
Proof. unfold laplacian. now rewrite gaussian_sigma_zero. Qed.

Lemma sample_grid_one (d s u1 u2 : R) :
  sample_grid 1 d s u1 u2 = Raise ZeroDivisionError.
Proof.
  unfold sample_grid, for_range, range.
  rewrite (for_each_first_raise _ _ _ ZeroDivisionError); [reflexivity | cbn; lia |].
  change (IZR (1 - 1)) with 0. now rewrite pdiv_zero.
Qed.

Lemma sample_grid_sigma_zero (n : Z) (d u1 u2 : R) :
  (1 <= n)%Z -> sample_grid n d 0 u1 u2 = Raise ZeroDivisionError.
Proof.
  intros Hn. destruct (Z.eq_dec n 1) as [-> | Hne]; [apply sample_grid_one |].
  assert (H2 : (2 <= n)%Z) by lia.
  unfold sample_grid, for_range, range.
  rewrite (for_each_first_raise _ _ _ ZeroDivisionError); [reflexivity | lia |].
  rewrite (pdiv_ok _ _ (IZR_pred_nonzero n H2)). cbn [bind]. cbv zeta.
  apply for_each_first_raise; [lia |].
  rewrite (pdiv_ok _ _ (IZR_pred_nonzero n H2)). cbn [bind]. cbv zeta.
  now rewrite laplacian_sigma_zero.
Qed.

Lemma sample_grid_empty (d s u1 u2 : R) :
  sample_grid 0 d s u1 u2 = Raise ZeroDivisionError.
Proof.
  unfold sample_grid, for_range, range. cbn [Z.to_nat seq for_each bind snd].
  change (IZR (0 ^ 2)) with 0. now rewrite pdiv_zero.
Qed.

(** ** Running steps 5 and 6 *)

Lemma builder_result_full (n : Z) (d s u1 u2 : R) (zc mx l1 : bool) (k : matrix) :
  (2 <= n)%Z -> s <> 0 ->
  laplacian_of_gaussian_kernel n d s u1 u2 zc mx l1 = Ok k ->
  full (Z.to_nat n) k.
Proof.
  intros Hn Hs H. destruct (builder_full _ _ _ _ _ _ _ _ _ Hn Hs H) as [F ->].
  apply full_matrix_map, full_raw_kernel.
Qed.

Lemma builder_max_ok (n : Z) (d s u1 u2 : R) (zc : bool) (k4 : matrix) :
  (2 <= n)%Z -> s <> 0 ->
  laplacian_of_gaussian_kernel n d s u1 u2 zc false false = Ok k4 ->
  max_abs (cells k4) <> 0 ->
  laplacian_of_gaussian_kernel n d s u1 u2 zc true false
  = Ok (matrix_map (fun v => v / max_abs (cells k4)) k4).
Proof.
  intros Hn Hs H4 Hne. rewrite builder_then_max, H4. cbn [bind].
  rewrite max_normalize_pass_full; [reflexivity | | assumption].
  exact (builder_result_full _ _ _ _ _ _ _ _ _ Hn Hs H4).
Qed.


(** ** Concrete sample points *)




(** * The kernel builder *)

(** C10: for [side_length = 0] the sampling loops have nothing to run
    over, the mean 0 is divided by [side_length ** 2 = 0], and the builder
    raises [ZeroDivisionError] whatever the flags: it never returns an
    empty kernel. *)
Theorem empty_grid_raises (domain s u1 u2 : R) (zero_center max_normalize l1 : bool) :
  range 0 = [] /\
  laplacian_of_gaussian_kernel 0 domain s u1 u2 zero_center max_normalize l1
  = Raise ZeroDivisionError.
Proof.
  split; [reflexivity |].
  unfold laplacian_of_gaussian_kernel. now rewrite sample_grid_empty.
Qed.

(** ** The minimum-tracking reduction *)

Lemma keep_min_lt (st : search_state) (c : candidate) :
  current_diff c < min_diff st -> keep_min st c = kept c.
Proof.
  intros H. unfold keep_min. destruct (Rlt_dec (current_diff c) (min_diff st));
    [reflexivity | contradiction].
Qed.

Lemma keep_min_ge (st : search_state) (c : candidate) :
  min_diff st <= current_diff c -> keep_min st c = st.
Proof.
  intros H. unfold keep_min. destruct (Rlt_dec (current_diff c) (min_diff st));
    [lra | reflexivity].
Qed.

Section Reduction.

Variable eval : nat -> nat -> M candidate.
Variable cand : nat -> nat -> candidate.
Variable search : Z.

Hypothesis eval_ok :
  forall i j, (i < Z.to_nat search)%nat -> (j < Z.to_nat search)%nat ->
    eval i j = Ok (cand i j).

Lemma tracked_step (i j : nat) (st : search_state) :
  (i < Z.to_nat search)%nat -> (j < Z.to_nat search)%nat ->
  tracked cand (Z.to_nat search) i j st ->
  tracked cand (Z.to_nat search) i (S j) (keep_min st (cand i j)).
Proof.
  intros Hi Hj [Hmin [Hcap Hwho]].
  destruct (Rlt_dec (current_diff (cand i j)) (min_diff st)) as [Hlt | Hge].
  - rewrite (keep_min_lt _ _ Hlt). repeat split.
    + intros a b Ha Hb He. cbn [kept min_diff].
      destruct (Nat.eq_dec a i) as [-> | Hai];
        [destruct (Nat.eq_dec b j) as [-> | Hbj] |].
      * lra.
      * assert (He' : earlier i b i j) by (unfold earlier in *; lia).
        specialize (Hmin i b Ha Hb He'). lra.
      * assert (He' : earlier a b i j) by (unfold earlier in *; lia).
        specialize (Hmin a b Ha Hb He'). lra.
    + cbn [kept min_diff]. lra.
    + right. exists i, j. repeat split; try assumption.
      * unfold earlier. lia.
      * intros a' b' Ha' Hb' He'. specialize (Hmin a' b' Ha' Hb' He'). lra.
  - rewrite keep_min_ge by lra. repeat split.
    + intros a b Ha Hb He.
      destruct (Nat.eq_dec a i) as [-> | Hai];
        [destruct (Nat.eq_dec b j) as [-> | Hbj] |].
      * lra.
      * apply Hmin; try assumption. unfold earlier in *. lia.
      * apply Hmin; try assumption. unfold earlier in *. lia.
    + exact Hcap.
    + destruct Hwho as [-> | [a [b [Ha [Hb [He [-> Hfirst]]]]]]]; [now left |].
      right. exists a, b. repeat split; try assumption.
      unfold earlier in *. lia.
Qed.

Lemma search_loop_tracked :
  exists st, search_loop eval search = Ok st
             /\ tracked cand (Z.to_nat search) (Z.to_nat search) 0 st.
Proof.
  unfold search_loop, for_range, range. fold initial_state.
  apply (sweep_inv (tracked cand (Z.to_nat search))
           (fun i st => for_each (seq 0 (Z.to_nat search)) (fun j st =>
              c <- eval i j ;; Ok (keep_min st c)) st)
           (fun i j st => c <- eval i j ;; Ok (keep_min st c))).
  - reflexivity.
  - repeat split.
    + intros a b _ _ He. unfold earlier in He. lia.
    + cbn. lra.
    + now left.
  - intros i j st Hi Hj Hst. rewrite (eval_ok i j Hi Hj). cbn [bind].
    eexists. split; [reflexivity | now apply tracked_step].
  - intros i st Hi [Hmin [Hcap Hwho]]. repeat split.
    + intros a b Ha Hb He. apply Hmin; try assumption. unfold earlier in *. lia.
    + exact Hcap.
    + destruct Hwho as [-> | [a [b [Ha [Hb [He [-> Hfirst]]]]]]]; [now left |].
      right. exists a, b. repeat split; try assumption.
      unfold earlier in *. lia.
Qed.

End Reduction.

Lemma evaluate_sigma_pos (search : Z) (i : nat) :
  (2 <= search)%Z -> 0 < 0.0001 + 4 * (INR i / IZR (search - 1)).
Proof.
  intros Hs. pose proof (pos_INR i) as Hi.
  assert (HD : 0 < IZR (search - 1)) by (apply IZR_lt; lia).
  assert (Hq : 0 <= INR i / IZR (search - 1)).
  { apply Rmult_le_pos; [assumption | left; now apply Rinv_0_lt_compat]. }
  lra.
Qed.

Lemma evaluate_eval (search : Z) (i j : nat) :
  (2 <= search)%Z -> evaluate search i j = Ok (evaluate_val search i j).
Proof.
  intros Hs. unfold evaluate, evaluate_val.
  rewrite !(pdiv_ok _ _ (IZR_pred_nonzero search Hs)). cbn [bind]. cbv zeta.
  set (d := 0.0001 + 4 * (INR j / IZR (search - 1))).
  set (s := 0.0001 + 4 * (INR i / IZR (search - 1))).
  assert (Hsig : s <> 0) by (apply Rgt_not_eq; now apply evaluate_sigma_pos).
  rewrite builder_centered by (lia || assumption). cbn [bind].
  unfold raw_kernel at 1 2 3. rewrite matrix_map_tabulate.
  rewrite !(load_tabulate _ (fun a b => raw_val 3 d s 0 0 a b - raw_mean 3 d s 0 0))
    by (cbn; lia).
  reflexivity.
Qed.


(** * The parameter search *)

(** C9, as the code has it: over the candidate grid run rows first, then
    columns, both ascending, with every candidate evaluated, the search
    ends in a state whose [min_diff] is below every score; either no score
    was below the initial 100000 and nothing is reported, or the reported
    candidate scores strictly less than every candidate evaluated before
    it: among candidates of equal minimal score the one evaluated first is
    reported. *)
Theorem search_reports_first_minimum
    (eval : nat -> nat -> M candidate) (cand : nat -> nat -> candidate) (search : Z) :
  (forall i j, (i < Z.to_nat search)%nat -> (j < Z.to_nat search)%nat ->
     eval i j = Ok (cand i j)) ->
  exists st : search_state,
    search_loop eval search = Ok st /\
    (forall a b, (a < Z.to_nat search)%nat -> (b < Z.to_nat search)%nat ->
       min_diff st <= current_diff (cand a b)) /\
    (st = initial_state \/
     exists a b, (a < Z.to_nat search)%nat /\ (b < Z.to_nat search)%nat /\
       st = kept (cand a b) /\
       (forall a' b', (a' < Z.to_nat search)%nat -> (b' < Z.to_nat search)%nat ->
          earlier a' b' a b -> current_diff (cand a b) < current_diff (cand a' b')) /\
       (forall a' b', (a' < Z.to_nat search)%nat -> (b' < Z.to_nat search)%nat ->
          current_diff (cand a' b') = current_diff (cand a b) ->
          (a', b') = (a, b) \/ earlier a b a' b')).
Proof.
  intros Hev.
  destruct (search_loop_tracked eval cand search Hev) as [st [Hrun [Hmin [_ Hwho]]]].
  exists st. split; [exact Hrun |]. split.
  - intros a b Ha Hb. apply Hmin; try assumption. unfold earlier. lia.
  - destruct Hwho as [-> | [a [b [Ha [Hb [_ [-> Hfirst]]]]]]]; [now left |].
    right. exists a, b. repeat split; try assumption.
    intros a' b' Ha' Hb' Htie.
    destruct (Nat.eq_dec a' a) as [-> | Hne].
    + destruct (lt_eq_lt_dec b' b) as [[Hlt | ->] | Hgt].
      * assert (He : earlier a b' a b) by (unfold earlier; lia).
        specialize (Hfirst a b' Ha' Hb' He). lra.
      * now left.
      * right. unfold earlier. lia.
    + destruct (lt_dec a' a) as [Hlt | Hge].
      * assert (He : earlier a' b' a b) by (unfold earlier; lia).
        specialize (Hfirst a' b' Ha' Hb' He). lra.
      * right. unfold earlier. lia.
Qed.

Lemma search_reports_first_minimum_witness :
  exists st : search_state,
    find_reference = Ok st /\
    forall a b, (a < 2000)%nat -> (b < 2000)%nat ->
      min_diff st <= current_diff (evaluate_val 2000 a b).
Proof.
  destruct (search_reports_first_minimum (evaluate 2000) (evaluate_val 2000) 2000)
    as [st [Hrun [Hmin _]]].
  - intros i j _ _. apply evaluate_eval. lia.
  - exists st. split; [exact Hrun |].
    intros a b Ha Hb. apply Hmin; lia.
Defined.

(** C9 as stated fails: with four candidates of one and the same score,
    the search reports the first one evaluated, [(0, 0)], and not the
    last, [(1, 1)]. *)
Lemma tie_not_resolved_to_last :
  search_loop tied_eval 2
  = Ok {| values := Some (0, 0); min_diff := 1; new_kernel := Some [] |} /\
  ~ search_loop tied_eval 2
    = Ok {| values := Some (1, 1); min_diff := 1; new_kernel := Some [] |}.
Proof.
  assert (E : search_loop tied_eval 2
              = Ok {| values := Some (0, 0); min_diff := 1; new_kernel := Some [] |}).
  { unfold search_loop, for_range, range. change (Z.to_nat 2) with 2%nat.
    cbn [seq for_each tied_eval bind INR].
    rewrite (keep_min_lt {| values := None; min_diff := 100000; new_kernel := None |})
      by (cbn; lra).
    unfold kept. cbn [kernel_domain kernel_sigma cand_kernel current_diff].
    rewrite !(keep_min_ge {| values := Some (0, 0); min_diff := 1; new_kernel := Some [] |})
      by (cbn; lra).
    reflexivity. }
  split; [exact E |]. rewrite E. intros [= H _]. lra.
Qed.

(** * Degenerate parameters *)




(** * Further properties of the evaluators *)

Lemma norm_sqrt (s : R) : sqrt ((2 * PI) ^ 2 * s ^ 4) = 2 * PI * s ^ 2.
Proof.
  replace ((2 * PI) ^ 2 * s ^ 4) with ((2 * PI * s ^ 2) * (2 * PI * s ^ 2)) by ring.
  apply sqrt_square. pose proof PI_RGT_0. pose proof (pow2_ge_0 s). nra.
Qed.

Lemma exp_nonpos_le_1 (z : R) : z <= 0 -> exp z <= 1.
Proof.
  intros [Hlt | ->]; [| rewrite exp_0; lra].
  rewrite <- exp_0. left. now apply exp_increasing.
Qed.

Lemma sq_pos (s : R) : s <> 0 -> 0 < s ^ 2.
Proof.
  intros Hs. pose proof (pow2_ge_0 s). pose proof (sq_nonzero s Hs). lra.
Qed.

(** The value of [laplacian] through the scaled squared distance
    [t = r^2 / s^2]. *)
Lemma laplacian_val_profile (x y s u1 u2 : R) :
  s <> 0 ->
  laplacian_val x y s u1 u2
  = exp (- (((x - u1) ^ 2 + (y - u2) ^ 2) / s ^ 2) / 2)
    * (((x - u1) ^ 2 + (y - u2) ^ 2) / s ^ 2 - 2) / (2 * PI * s ^ 4).
Proof.
  intros Hs. unfold laplacian_val, gaussian_val. rewrite norm_sqrt.
  replace (- ((x - u1) ^ 2 + (y - u2) ^ 2) / (2 * s ^ 2))
    with (- (((x - u1) ^ 2 + (y - u2) ^ 2) / s ^ 2) / 2) by (now field).
  pose proof PI_RGT_0. field. repeat split; try assumption; lra.
Qed.

(** The profile [exp (-t/2) * (t - 2)] stays within [-2, 2] for [t >= 0]. *)
Lemma profile_bounds (t : R) :
  0 <= t -> - 2 <= exp (- t / 2) * (t - 2) <= 2.
Proof.
  intros Ht. pose proof (exp_pos (- t / 2)) as Hpos.
  assert (Hle : exp (- t / 2) <= 1) by (apply exp_nonpos_le_1; lra).
  assert (Hup : exp (- t / 2) * (1 + t / 2) <= 1).
  { pose proof (exp_ineq1_le (t / 2)) as Hin.
    assert (Hinv : exp (- t / 2) * exp (t / 2) = 1).
    { rewrite <- exp_plus. replace (- t / 2 + t / 2) with 0 by field. apply exp_0. }
    rewrite <- Hinv. apply Rmult_le_compat_l; lra. }
  split; nra.
Qed.

(** X3: both evaluators take the same value, or raise the same error, at
    a point and at its reflection through the mean [(u1, u2)]. *)
Theorem evaluators_reflect (x y s u1 u2 : R) :
  gaussian (2 * u1 - x) (2 * u2 - y) s u1 u2 = gaussian x y s u1 u2 /\
  laplacian (2 * u1 - x) (2 * u2 - y) s u1 u2 = laplacian x y s u1 u2.
Proof.
  assert (E : (2 * u1 - x - u1) ^ 2 + (2 * u2 - y - u2) ^ 2
              = (x - u1) ^ 2 + (y - u2) ^ 2) by ring.
  assert (G : gaussian (2 * u1 - x) (2 * u2 - y) s u1 u2 = gaussian x y s u1 u2).
  { unfold gaussian. now rewrite E. }
  split; [exact G |]. unfold laplacian. now rewrite G, E.
Qed.

(** X4: both evaluators accept a negative [s] and answer as for [-s]:
    only [s^2] and [s^4] enter the computation. *)
Theorem evaluators_even_in_s (x y s u1 u2 : R) :
  gaussian x y (- s) u1 u2 = gaussian x y s u1 u2 /\
  laplacian x y (- s) u1 u2 = laplacian x y s u1 u2.
Proof.
  assert (E2 : (- s) ^ 2 = s ^ 2) by ring.
  assert (E4 : (- s) ^ 4 = s ^ 4) by ring.
  assert (G : gaussian x y (- s) u1 u2 = gaussian x y s u1 u2).
  { unfold gaussian. now rewrite E2, E4. }
  split; [exact G |]. unfold laplacian. now rewrite G, E2.
Qed.

Lemma laplacian_val_at_mean (s u1 u2 : R) :
  s <> 0 -> laplacian_val u1 u2 s u1 u2 = - 1 / (PI * s ^ 4).
Proof.
  intros Hs. pose proof PI_RGT_0 as Hpi.
  rewrite laplacian_val_profile by assumption.
  replace (((u1 - u1) ^ 2 + (u2 - u2) ^ 2) / s ^ 2) with 0 by (now field).
  replace (- 0 / 2) with 0 by field. rewrite exp_0. field.
  split; [assumption | lra].
Qed.

Lemma laplacian_val_bounds (x y s u1 u2 : R) :
  s <> 0 ->
  - 1 / (PI * s ^ 4) <= laplacian_val x y s u1 u2 <= 1 / (PI * s ^ 4).
Proof.
  intros Hs. pose proof PI_RGT_0 as Hpi. pose proof (sq_pos s Hs) as Hs2.
  assert (Hs4 : 0 < s ^ 4) by (replace (s ^ 4) with (s ^ 2 * s ^ 2) by ring; nra).
  assert (Hden : 0 < 2 * PI * s ^ 4) by nra.
  rewrite laplacian_val_profile by assumption.
  set (t := ((x - u1) ^ 2 + (y - u2) ^ 2) / s ^ 2).
  assert (Ht : 0 <= t).
  { unfold t. apply Rmult_le_pos.
    - pose proof (pow2_ge_0 (x - u1)). pose proof (pow2_ge_0 (y - u2)). lra.
    - left. now apply Rinv_0_lt_compat. }
  destruct (profile_bounds t Ht) as [Hlo Hhi].
  replace (- 1 / (PI * s ^ 4)) with (- 2 / (2 * PI * s ^ 4))
    by (field; split; [assumption | lra]).
  replace (1 / (PI * s ^ 4)) with (2 / (2 * PI * s ^ 4))
    by (field; split; [assumption | lra]).
  pose proof (Rinv_0_lt_compat _ Hden) as Hinv.
  split; apply Rmult_le_compat_r; lra.
Qed.


(** Away from the mean the value is strictly above the one at the mean. *)
Lemma laplacian_val_above_mean (x y s u1 u2 : R) :
  s <> 0 -> (x - u1) ^ 2 + (y - u2) ^ 2 <> 0 ->
  laplacian_val u1 u2 s u1 u2 < laplacian_val x y s u1 u2.
Proof.
  intros Hs Hr. pose proof PI_RGT_0 as Hpi. pose proof (sq_pos s Hs) as Hs2.
  assert (Hs4 : 0 < s ^ 4) by (replace (s ^ 4) with (s ^ 2 * s ^ 2) by ring; nra).
  assert (Hden : 0 < 2 * PI * s ^ 4) by nra.
  rewrite laplacian_val_at_mean, laplacian_val_profile by assumption.
  set (t := ((x - u1) ^ 2 + (y - u2) ^ 2) / s ^ 2).
  assert (Ht : 0 < t).
  { unfold t. apply Rmult_lt_0_compat.
    - pose proof (pow2_ge_0 (x - u1)). pose proof (pow2_ge_0 (y - u2)). lra.
    - now apply Rinv_0_lt_compat. }
  assert (Hstrict : - 2 < exp (- t / 2) * (t - 2)).
  { pose proof (exp_pos (- t / 2)) as Hpos.
    assert (Hlt : exp (- t / 2) < 1).
    { rewrite <- exp_0. apply exp_increasing. lra. }
    destruct (Rlt_le_dec t 2) as [Hsmall | Hbig]; nra. }
  replace (- 1 / (PI * s ^ 4)) with (- 2 / (2 * PI * s ^ 4))
    by (field; split; [assumption | lra]).
  pose proof (Rinv_0_lt_compat _ Hden) as Hinv.
  apply Rmult_lt_compat_r; lra.
Qed.

(** * Further properties of the kernel builder *)

(** ** Every way the sampling phase can end *)

Lemma sample_grid_negative (n : Z) (d s u1 u2 : R) :
  (n < 0)%Z -> sample_grid n d s u1 u2 = Ok ([], 0).
Proof.
  intros Hn. unfold sample_grid, for_range, range.
  replace (Z.to_nat n) with 0%nat by lia. cbn [seq for_each repeat bind snd fst].
  rewrite pdiv_ok.
  - cbn [bind]. f_equal. f_equal. unfold Rdiv. ring.
  - intros H. apply eq_IZR_R0 in H. nia.
Qed.

Lemma sample_grid_cases (n : Z) (d s u1 u2 : R) :
  ((n < 0)%Z /\ sample_grid n d s u1 u2 = Ok ([], 0)) \/
  (((0 <= n <= 1)%Z \/ ((2 <= n)%Z /\ s = 0)) /\
   sample_grid n d s u1 u2 = Raise ZeroDivisionError) \/
  ((2 <= n)%Z /\ s <> 0 /\
   sample_grid n d s u1 u2 = Ok (raw_kernel n d s u1 u2, raw_mean n d s u1 u2)).
Proof.
  destruct (Z_lt_le_dec n 0) as [Hneg | Hnn].
  { left. split; [assumption | now apply sample_grid_negative]. }
  right. destruct (Z_lt_le_dec n 2) as [Hsmall | Hbig].
  { left. split; [left; lia |].
    destruct (Z.eq_dec n 0) as [-> | Hn0]; [apply sample_grid_empty |].
    replace n with 1%Z by lia. apply sample_grid_one. }
  destruct (Req_EM_T s 0) as [-> | Hs].
  - left. split; [right; now split |]. apply sample_grid_sigma_zero. lia.
  - right. split; [assumption |]. split; [assumption |]. now apply sample_grid_eval.
Qed.

Lemma passes_on_empty_range (n : Z) (mean : R) (k : matrix) :
  (n <= 0)%Z ->
  zero_center_pass n mean k = Ok k /\
  max_normalize_pass n k = Ok k /\
  absolute_l1_normalize_pass n k = Ok k.
Proof.
  intros Hn.
  unfold zero_center_pass, max_normalize_pass, absolute_l1_normalize_pass,
    for_range, range.
  replace (Z.to_nat n) with 0%nat by lia. repeat split.
Qed.

Lemma builder_negative (n : Z) (d s u1 u2 : R) (zc mx l1 : bool) :
  (n < 0)%Z -> laplacian_of_gaussian_kernel n d s u1 u2 zc mx l1 = Ok [].
Proof.
  intros Hn. unfold laplacian_of_gaussian_kernel.
  rewrite sample_grid_negative by assumption. cbn [bind fst snd].
  destruct (passes_on_empty_range n 0 [] ltac:(lia)) as [Hz [Hm Hl]].
  destruct zc, mx, l1;
    repeat first [rewrite Hz | rewrite Hm | rewrite Hl | progress cbn [bind]];
    reflexivity.
Qed.

Lemma builder_sampling_raises (n : Z) (d s u1 u2 : R) (zc mx l1 : bool) (e : pyerr) :
  sample_grid n d s u1 u2 = Raise e ->
  laplacian_of_gaussian_kernel n d s u1 u2 zc mx l1 = Raise e.
Proof. intros H. unfold laplacian_of_gaussian_kernel. now rewrite H. Qed.

(** On a grid of at least one point the builder returns only for a
    nonzero [s]. *)
Lemma builder_returns_sigma (n : Z) (d s u1 u2 : R) (zc mx l1 : bool) (k : matrix) :
  (1 <= n)%Z ->
  laplacian_of_gaussian_kernel n d s u1 u2 zc mx l1 = Ok k -> s <> 0.
Proof.
  intros Hn H Hs. subst s.
  rewrite (builder_sampling_raises _ _ _ _ _ _ _ _ _
             (sample_grid_sigma_zero n d u1 u2 Hn)) in H.
  discriminate.
Qed.

(** X8: a negative [side_length] is not rejected: the builder returns the
    empty kernel, whatever the other arguments ([s = 0] included) and
    whatever the flags. *)
Theorem negative_side_length_gives_empty_kernel
    (side_length : Z) (domain s u1 u2 : R) (zero_center max_normalize l1 : bool) :
  (side_length < 0)%Z ->
  laplacian_of_gaussian_kernel side_length domain s u1 u2 zero_center max_normalize l1
  = Ok [].
Proof. apply builder_negative. Qed.

Lemma negative_side_length_gives_empty_kernel_witness :
  laplacian_of_gaussian_kernel (- 3) 2 0 0 0 true true true = Ok [].
Proof. apply (negative_side_length_gives_empty_kernel (- 3) 2 0 0 0 true true true). lia. Defined.

(** X9: every kernel the builder returns, on any arguments, has
    [side_length] rows of [side_length] cells (none for a negative
    [side_length]), and every cell holds a number. *)
Theorem returned_kernel_is_square_and_full
    (side_length : Z) (domain s u1 u2 : R) (zero_center max_normalize l1 : bool)
    (k : matrix) :
  laplacian_of_gaussian_kernel side_length domain s u1 u2 zero_center max_normalize l1
  = Ok k ->
  square (Z.to_nat side_length) k /\
  forall i j, (i < Z.to_nat side_length)%nat -> (j < Z.to_nat side_length)%nat ->
    exists v : R, cell_at k i j = Some v.
Proof.
  intros H.
  destruct (sample_grid_cases side_length domain s u1 u2)
    as [[Hneg _] | [[_ Hr] | [Hn [Hs _]]]].
  - rewrite builder_negative in H by assumption. injection H as <-.
    replace (Z.to_nat side_length) with 0%nat by lia. split.
    + split; [reflexivity | constructor].
    + intros i j Hi. lia.
  - rewrite (builder_sampling_raises _ _ _ _ _ _ _ _ _ Hr) in H. discriminate.
  - destruct (builder_full _ _ _ _ _ _ _ _ _ Hn Hs H) as [F ->]. split.
    + unfold raw_kernel. rewrite matrix_map_tabulate. apply square_tabulate.
    + intros i j Hi Hj. eexists. now apply cell_at_mapped_raw.
Qed.

Lemma returned_kernel_is_square_and_full_witness :
  square 3 (raw_kernel 3 1 1 0 0) /\
  exists v : R, cell_at (raw_kernel 3 1 1 0 0) 2 2 = Some v.
Proof.
  destruct (returned_kernel_is_square_and_full 3 1 1 0 0 false false false
              (raw_kernel 3 1 1 0 0)) as [Hsq Hcell].
  - apply builder_raw; [lia | lra].
  - split; [exact Hsq | apply Hcell; cbn; lia].
Defined.

(** ** Cell-wise maps, scaling *)

Lemma matrix_map_compose (F G : R -> R) (k : matrix) :
  matrix_map G (matrix_map F k) = matrix_map (fun v => G (F v)) k.
Proof.
  unfold matrix_map. rewrite map_map. apply map_ext. intros row.
  rewrite map_map. apply map_ext. now intros [v |].
Qed.

Lemma max_abs_zero_all_zero (l : list R) : max_abs l = 0 -> forall v, In v l -> v = 0.
Proof.
  intros Hz v Hin. pose proof (max_abs_bound l v Hin) as Hb. rewrite Hz in Hb.
  destruct (Req_EM_T v 0) as [E | Hne]; [exact E |].
  pose proof (Rabs_pos_lt v Hne). lra.
Qed.

(** ** Where the samples sit *)

Lemma laplacian_val_dist (x y x' y' s u1 u2 u1' u2' : R) :
  (x - u1) ^ 2 + (y - u2) ^ 2 = (x' - u1') ^ 2 + (y' - u2') ^ 2 ->
  laplacian_val x y s u1 u2 = laplacian_val x' y' s u1' u2'.
Proof. intros H. unfold laplacian_val, gaussian_val. now rewrite H. Qed.

Lemma grid_x_first (n : Z) (d : R) : grid_x n d 0 = - d.
Proof. unfold grid_x. cbn [INR]. unfold Rdiv. ring. Qed.

Lemma grid_x_last (n : Z) (d : R) :
  (2 <= n)%Z -> grid_x n d (Z.to_nat n - 1) = d.
Proof.
  intros Hn. replace (Z.to_nat n - 1)%nat with (Z.to_nat n - 1 - 0)%nat by lia.
  rewrite grid_x_mirror by lia. rewrite grid_x_first. ring.
Qed.

Lemma grid_x_middle (m : Z) (d : R) :
  (1 <= m)%Z -> grid_x (2 * m + 1) d (Z.to_nat m) = 0.
Proof.
  intros Hm. unfold grid_x. rewrite INR_IZR_INZ, Z2Nat.id by lia.
  replace (2 * m + 1 - 1)%Z with (2 * m)%Z by lia. rewrite mult_IZR.
  assert (IZR m <> 0) by (intros H; apply eq_IZR_R0 in H; lia).
  field. assumption.
Qed.

(** X11: row 0 is the top of the sampled square and column 0 its left:
    for [side_length >= 2], whenever the builder returns its raw kernel
    (flags off), the four corners hold what [laplacian] returns at
    [(-domain, domain)], [(domain, domain)], [(-domain, -domain)] and
    [(domain, -domain)]. *)
Theorem kernel_corners (side_length : Z) (domain s u1 u2 : R) (k : matrix) :
  (2 <= side_length)%Z ->
  laplacian_of_gaussian_kernel side_length domain s u1 u2 false false false = Ok k ->
  load k 0 0 = laplacian (- domain) domain s u1 u2 /\
  load k 0 (Z.to_nat side_length - 1) = laplacian domain domain s u1 u2 /\
  load k (Z.to_nat side_length - 1) 0 = laplacian (- domain) (- domain) s u1 u2 /\
  load k (Z.to_nat side_length - 1) (Z.to_nat side_length - 1)
  = laplacian domain (- domain) s u1 u2.
Proof.
  intros Hn H.
  assert (Hs : s <> 0) by (eapply builder_returns_sigma; [| exact H]; lia).
  rewrite builder_raw in H by assumption. injection H as <-.
  unfold raw_kernel. rewrite !load_tabulate by lia.
  rewrite !laplacian_eval by assumption. unfold raw_val.
  rewrite !grid_y_x, !grid_x_first, !grid_x_last by assumption.
  rewrite Ropp_involutive. repeat split.
Qed.

Lemma kernel_corners_witness :
  load (raw_kernel 5 2 1 0 0) 0 0 = laplacian (- 2) 2 1 0 0 /\
  load (raw_kernel 5 2 1 0 0) 4 4 = laplacian 2 (- 2) 1 0 0.
Proof.
  destruct (kernel_corners 5 2 1 0 0 (raw_kernel 5 2 1 0 0)) as [H00 [_ [_ H44]]].
  - lia.
  - apply builder_raw; [lia | lra].
  - split; [exact H00 | exact H44].
Defined.

(** X12: for an odd [side_length = 2 m + 1 >= 3], whenever the builder
    returns its raw kernel (flags off), the middle cell is what
    [laplacian] returns at the point [(0, 0)]. *)
Theorem odd_kernel_centre (m : Z) (domain s u1 u2 : R) (k : matrix) :
  (1 <= m)%Z ->
  laplacian_of_gaussian_kernel (2 * m + 1) domain s u1 u2 false false false = Ok k ->
  load k (Z.to_nat m) (Z.to_nat m) = laplacian 0 0 s u1 u2.
Proof.
  intros Hm H.
  assert (Hs : s <> 0) by (eapply builder_returns_sigma; [| exact H]; lia).
  rewrite builder_raw in H by (lia || assumption).
  assert (Hk : k = raw_kernel (2 * m + 1) domain s u1 u2) by congruence. subst k.
  unfold raw_kernel. rewrite load_tabulate by lia.
  rewrite laplacian_eval by assumption. unfold raw_val.
  rewrite grid_y_x, grid_x_middle by assumption. now rewrite Ropp_0.
Qed.

Lemma odd_kernel_centre_witness :
  load (raw_kernel (2 * 2 + 1) 2 1 0 0) (Z.to_nat 2) (Z.to_nat 2) = laplacian 0 0 1 0 0.
Proof.
  apply (odd_kernel_centre 2 2 1 0 0 (raw_kernel (2 * 2 + 1) 2 1 0 0)).
  - lia.
  - apply builder_raw; [lia | lra].
Defined.

(** X13: for [side_length >= 2] and a Gaussian centred on the sampled
    square ([u1 = u2 = 0]), every kernel the builder returns, whatever the
    flags, equals its transpose: cells [(i, j)] and [(j, i)] hold one and
    the same number. *)
Theorem kernel_transpose_symmetry (side_length : Z) (domain s : R)
    (zero_center max_normalize l1 : bool) (K : matrix) :
  (2 <= side_length)%Z ->
  laplacian_of_gaussian_kernel side_length domain s 0 0 zero_center max_normalize l1 = Ok K ->
  forall i j, (i < Z.to_nat side_length)%nat -> (j < Z.to_nat side_length)%nat ->
    exists v : R, cell_at K i j = Some v /\ cell_at K j i = Some v.
Proof.
  intros Hn H i j Hi Hj.
  assert (Hs : s <> 0) by (eapply builder_returns_sigma; [| exact H]; lia).
  destruct (builder_full _ _ _ _ _ _ _ _ _ Hn Hs H) as [F ->].
  rewrite !cell_at_mapped_raw by lia. eexists. split; [reflexivity |].
  now rewrite (raw_val_transpose side_length domain s i j).
Qed.

Lemma kernel_transpose_symmetry_witness :
  exists v : R,
    cell_at (raw_kernel 3 1 1 0 0) 0 1 = Some v /\
    cell_at (raw_kernel 3 1 1 0 0) 1 0 = Some v.
Proof.
  apply (kernel_transpose_symmetry 3 1 1 false false false (raw_kernel 3 1 1 0 0)).
  - lia.
  - apply builder_raw; [lia | lra].
  - cbn; lia.
  - cbn; lia.
Defined.

(** ** Kernels that cannot be normalised, kernels that can *)

Lemma In_row_major_inv (n : nat) (g : nat -> nat -> R) (v : R) :
  In v (row_major n g) -> exists i j, (i < n)%nat /\ (j < n)%nat /\ v = g i j.
Proof.
  unfold row_major. intros H. apply in_flat_map in H. destruct H as [i [Hi H]].
  apply in_map_iff in H. destruct H as [j [<- Hj]].
  apply in_seq in Hi. apply in_seq in Hj. exists i, j. repeat split; lia.
Qed.





(** An odd kernel centred on the Gaussian, on a square of positive
    extent, is not constant, so the default flags run to the end. *)
Lemma odd_centred_default_runs (m : Z) (d s : R) :
  (1 <= m)%Z -> s <> 0 -> d <> 0 ->
  exists K : matrix,
    laplacian_of_gaussian_kernel (2 * m + 1) d s 0 0 true true false = Ok K /\
    square (Z.to_nat (2 * m + 1)) K /\
    (forall i j, (i < Z.to_nat (2 * m + 1))%nat -> (j < Z.to_nat (2 * m + 1))%nat ->
       exists v : R, cell_at K i j = Some v) /\
    max_abs (cells K) = 1.
Proof.
  intros Hm Hs Hd. assert (Hn : (2 <= 2 * m + 1)%Z) by lia.
  pose proof (builder_centered (2 * m + 1) d s 0 0 Hn Hs) as H4.
  set (k4 := matrix_map (fun v => v - raw_mean (2 * m + 1) d s 0 0)
               (raw_kernel (2 * m + 1) d s 0 0)) in *.
  assert (Hne : max_abs (cells k4) <> 0).
  { intros Hz. pose proof (max_abs_zero_all_zero _ Hz) as Hall.
    assert (Hcell : forall i j, (i < Z.to_nat (2 * m + 1))%nat ->
              (j < Z.to_nat (2 * m + 1))%nat ->
              raw_val (2 * m + 1) d s 0 0 i j = raw_mean (2 * m + 1) d s 0 0).
    { intros i j Hi Hj.
      assert (Hin : In (raw_val (2 * m + 1) d s 0 0 i j - raw_mean (2 * m + 1) d s 0 0)
                      (cells k4)).
      { unfold k4. rewrite cells_matrix_map.
        apply (in_map (fun v => v - raw_mean (2 * m + 1) d s 0 0)).
        now apply In_cells_raw. }
      pose proof (Hall _ Hin). lra. }
    pose proof (Hcell (Z.to_nat m) (Z.to_nat m) ltac:(lia) ltac:(lia)) as Hmid.
    pose proof (Hcell 0%nat (Z.to_nat m) ltac:(lia) ltac:(lia)) as Htop.
    unfold raw_val in Hmid, Htop.
    rewrite grid_y_x, grid_x_middle, Ropp_0 in Hmid by assumption.
    rewrite grid_y_x, grid_x_middle, grid_x_first, Ropp_involutive in Htop by assumption.
    pose proof (laplacian_val_above_mean 0 d s 0 0 Hs) as Hlt.
    assert (Hr : (0 - 0) ^ 2 + (d - 0) ^ 2 <> 0).
    { replace ((0 - 0) ^ 2 + (d - 0) ^ 2) with (d ^ 2) by ring. now apply sq_nonzero. }
    specialize (Hlt Hr). lra. }
  pose proof (builder_max_ok _ _ _ _ _ _ _ Hn Hs H4 Hne) as H5.
  eexists. split; [exact H5 |]. split; [| split].
  - unfold k4, raw_kernel. rewrite !matrix_map_tabulate. apply square_tabulate.
  - intros i j Hi Hj. unfold k4. rewrite matrix_map_compose. eexists.
    now apply cell_at_mapped_raw.
  - rewrite cells_matrix_map. now apply max_abs_normalized.
Qed.



(** X18: [view] never raises: the kernel it hands to the plot has 201
    rows of 201 cells, every cell holds a number, and the largest absolute
    value is 1. *)
Theorem view_builds_its_kernel :
  exists K : matrix,
    view = Ok K /\
    square 201 K /\
    (forall i j, (i < 201)%nat -> (j < 201)%nat -> exists v : R, cell_at K i j = Some v) /\
    max_abs (cells K) = 1.
Proof.
  destruct (odd_centred_default_runs 100 8 2) as [K [HK [Hsq [Hfull Hmax]]]];
    [lia | lra | lra |].
  exists K. split; [exact HK |]. split; [exact Hsq |]. split; [| exact Hmax].
  intros i j Hi Hj. apply Hfull; change (Z.to_nat (2 * 100 + 1)) with 201%nat; assumption.
Qed.

(** ** Signs of the arguments *)

Lemma laplacian_val_even_in_s (x y s u1 u2 : R) :
  laplacian_val x y (- s) u1 u2 = laplacian_val x y s u1 u2.
Proof.
  unfold laplacian_val, gaussian_val.
  replace ((- s) ^ 2) with (s ^ 2) by ring.
  replace ((- s) ^ 4) with (s ^ 4) by ring. reflexivity.
Qed.

Lemma builder_from_sampling (n : Z) (d s u1 u2 d' s' u1' u2' : R) (zc mx l1 : bool) :
  sample_grid n d s u1 u2 = sample_grid n d' s' u1' u2' ->
  laplacian_of_gaussian_kernel n d s u1 u2 zc mx l1
  = laplacian_of_gaussian_kernel n d' s' u1' u2' zc mx l1.
Proof. intros H. unfold laplacian_of_gaussian_kernel. now rewrite H. Qed.

(** Two parameter settings with the same raw values, cell by cell, and
    vanishing [s] together, sample the same grid. *)
Lemma sample_grid_same_values (n : Z) (d s u1 u2 d' s' u1' u2' : R) :
  (s = 0 <-> s' = 0) ->
  (forall i j, raw_val n d s u1 u2 i j = raw_val n d' s' u1' u2' i j) ->
  sample_grid n d s u1 u2 = sample_grid n d' s' u1' u2'.
Proof.
  intros Hzero Hval.
  destruct (Z_lt_le_dec n 0) as [Hneg | Hnn].
  { now rewrite !sample_grid_negative. }
  destruct (Z_lt_le_dec n 2) as [Hsmall | Hbig].
  { destruct (Z.eq_dec n 0) as [-> | Hn0]; [now rewrite !sample_grid_empty |].
    replace n with 1%Z by lia. now rewrite !sample_grid_one. }
  destruct (Req_EM_T s 0) as [Hs | Hs].
  - assert (Hs' : s' = 0) by now apply Hzero. subst s s'.
    now rewrite !sample_grid_sigma_zero by lia.
  - assert (Hs' : s' <> 0) by (intros E; apply Hs; now apply Hzero).
    rewrite !sample_grid_eval by assumption.
    assert (E : raw_kernel n d s u1 u2 = raw_kernel n d' s' u1' u2').
    { unfold raw_kernel. apply tabulate_ext. intros i j _ _. now rewrite Hval. }
    now rewrite E.
Qed.

(** X19: on all arguments and flags the builder answers for [- s] as for
    [s], and for [- domain] as for [domain] with the mean reflected
    through the origin; in particular a negative [s] or [domain] is not
    rejected. *)
Theorem builder_ignores_signs
    (side_length : Z) (domain s u1 u2 : R) (zero_center max_normalize l1 : bool) :
  laplacian_of_gaussian_kernel side_length domain (- s) u1 u2 zero_center max_normalize l1
  = laplacian_of_gaussian_kernel side_length domain s u1 u2 zero_center max_normalize l1 /\
  laplacian_of_gaussian_kernel side_length (- domain) s u1 u2 zero_center max_normalize l1
  = laplacian_of_gaussian_kernel side_length domain s (- u1) (- u2)
      zero_center max_normalize l1.
Proof.
  split; apply builder_from_sampling, sample_grid_same_values.
  - split; intros H; lra.
  - intros i j. unfold raw_val. apply laplacian_val_even_in_s.
  - tauto.
  - intros i j. unfold raw_val. apply laplacian_val_dist.
    unfold grid_x, grid_y. ring.
Qed.

(** ** Three by three kernels *)

Lemma grid_x_3 (d : R) :
  grid_x 3 d 0 = - d /\ grid_x 3 d 1 = 0 /\ grid_x 3 d 2 = d.
Proof.
  split; [apply grid_x_first |]. split.
  - apply (grid_x_middle 1 d). lia.
  - apply (grid_x_last 3 d). lia.
Qed.

(** X20: every 3 by 3 kernel the builder returns for a Gaussian centred
    on the sampled square, whatever the flags, has one value in its four
    corners, one on its four edges and one in the middle. *)
Theorem three_by_three_pattern (domain s : R)
    (zero_center max_normalize l1 : bool) (K : matrix) :
  laplacian_of_gaussian_kernel 3 domain s 0 0 zero_center max_normalize l1 = Ok K ->
  exists c e m : R,
    K = [[Some c; Some e; Some c]; [Some e; Some m; Some e]; [Some c; Some e; Some c]].
Proof.
  intros H. assert (Hn : (2 <= 3)%Z) by lia.
  assert (Hs : s <> 0) by (eapply builder_returns_sigma; [| exact H]; lia).
  destruct (builder_full _ _ _ _ _ _ _ _ _ Hn Hs H) as [F HK].
  destruct (grid_x_3 domain) as [G0 [G1 G2]].
  assert (Hraw : forall i j,
    raw_val 3 domain s 0 0 i j
    = laplacian_val (grid_x 3 domain j) (grid_x 3 domain i) s 0 0).
  { intros i j. unfold raw_val. apply laplacian_val_radial. rewrite grid_y_x. ring. }
  set (corner := laplacian_val domain domain s 0 0).
  set (edge := laplacian_val 0 domain s 0 0).
  set (mid := laplacian_val 0 0 s 0 0).
  assert (E00 : raw_val 3 domain s 0 0 0 0 = corner)
    by (rewrite Hraw, G0; apply laplacian_val_radial; ring).
  assert (E02 : raw_val 3 domain s 0 0 0 2 = corner)
    by (rewrite Hraw, G0, G2; apply laplacian_val_radial; ring).
  assert (E20 : raw_val 3 domain s 0 0 2 0 = corner)
    by (rewrite Hraw, G0, G2; apply laplacian_val_radial; ring).
  assert (E22 : raw_val 3 domain s 0 0 2 2 = corner)
    by (rewrite Hraw, G2; reflexivity).
  assert (E01 : raw_val 3 domain s 0 0 0 1 = edge)
    by (rewrite Hraw, G0, G1; apply laplacian_val_radial; ring).
  assert (E10 : raw_val 3 domain s 0 0 1 0 = edge)
    by (rewrite Hraw, G0, G1; apply laplacian_val_radial; ring).
  assert (E12 : raw_val 3 domain s 0 0 1 2 = edge)
    by (rewrite Hraw, G1, G2; apply laplacian_val_radial; ring).
  assert (E21 : raw_val 3 domain s 0 0 2 1 = edge)
    by (rewrite Hraw, G1, G2; reflexivity).
  assert (E11 : raw_val 3 domain s 0 0 1 1 = mid)
    by (rewrite Hraw, G1; reflexivity).
  exists (F corner), (F edge), (F mid).
  rewrite HK. unfold raw_kernel. rewrite matrix_map_tabulate.
  change (Z.to_nat 3) with 3%nat. unfold tabulate. cbn [seq map].
  now rewrite E00, E01, E02, E10, E11, E12, E20, E21, E22.
Qed.

Lemma three_by_three_pattern_witness :
  exists c e m : R,
    raw_kernel 3 1 1 0 0
    = [[Some c; Some e; Some c]; [Some e; Some m; Some e]; [Some c; Some e; Some c]].
Proof.
  apply (three_by_three_pattern 1 1 false false false (raw_kernel 3 1 1 0 0)).
  apply builder_raw; [lia | lra].
Defined.

(** * Further properties of the parameter search *)

Lemma evaluate_range (j : nat) :
  (j < 2000)%nat ->
  0.0001 <= 0.0001 + 4 * (INR j / IZR (2000 - 1)) <= 4.0001.
Proof.
  intros Hj. change (IZR (2000 - 1)) with 1999.
  pose proof (pos_INR j) as H0.
  assert (H1 : INR j <= 1999).
  { rewrite INR_IZR_INZ. apply IZR_le. lia. }
  assert (Hq : 0 <= INR j / 1999 <= 1).
  { split.
    - apply Rmult_le_pos; [assumption | lra].
    - apply (Rmult_le_reg_r 1999); [lra |]. unfold Rdiv.
      rewrite Rmult_assoc, Rinv_l by lra. lra. }
  lra.
Qed.

Lemma Rabs_le_between (x b : R) : Rabs x <= b -> - b <= x <= b.
Proof.
  intros H. unfold Rabs in H. destruct (Rcase_abs x); lra.
Qed.

Lemma Rsum_abs_bound (b : R) (l : list R) :
  (forall v, In v l -> Rabs v <= b) -> Rabs (Rsum l) <= INR (length l) * b.
Proof.
  unfold Rsum. induction l as [| w l IH]; intros Hall; cbn [fold_right length].
  - rewrite Rabs_R0. cbn. lra.
  - rewrite S_INR. eapply Rle_trans; [apply Rabs_triang |].
    specialize (IH (fun v Hv => Hall v (or_intror Hv))).
    pose proof (Hall w (or_introl eq_refl)). lra.
Qed.

Lemma raw_val_abs_bound (n : Z) (d s u1 u2 : R) (i j : nat) :
  s <> 0 -> Rabs (raw_val n d s u1 u2 i j) <= 1 / (PI * s ^ 4).
Proof.
  intros Hs. unfold raw_val. apply Rabs_le.
  replace (- (1 / (PI * s ^ 4))) with (- 1 / (PI * s ^ 4)) by (unfold Rdiv; ring).
  now apply laplacian_val_bounds.
Qed.

Lemma raw_mean_abs_bound (n : Z) (d s u1 u2 : R) :
  (2 <= n)%Z -> s <> 0 -> Rabs (raw_mean n d s u1 u2) <= 1 / (PI * s ^ 4).
Proof.
  intros Hn Hs. unfold raw_mean.
  assert (Hpos : 0 < IZR (n ^ 2)) by (apply IZR_lt; nia).
  assert (Hsum : Rabs (Rsum (cells (raw_kernel n d s u1 u2)))
                 <= IZR (n ^ 2) * (1 / (PI * s ^ 4))).
  { rewrite <- (to_nat_sq n) by lia.
    replace (Z.to_nat n * Z.to_nat n)%nat
      with (length (cells (raw_kernel n d s u1 u2)))
      by (unfold raw_kernel; now rewrite cells_tabulate, length_row_major).
    apply Rsum_abs_bound. intros v Hv. unfold raw_kernel in Hv.
    rewrite cells_tabulate in Hv. apply In_row_major_inv in Hv.
    destruct Hv as [i [j [_ [_ ->]]]]. now apply raw_val_abs_bound. }
  rewrite Rabs_div_pos by assumption.
  apply (Rmult_le_reg_r (IZR (n ^ 2))); [assumption |].
  unfold Rdiv at 1. rewrite Rmult_assoc, Rinv_l by lra. lra.
Qed.

(** The candidate of the last row and first column, [sigma = 4.0001],
    scores far below the initial [min_diff]. *)
Lemma last_row_score :
  current_diff (evaluate_val 2000 1999 0) < 100000.
Proof.
  cbn [evaluate_val current_diff]. cbv zeta.
  set (d := 0.0001 + 4 * (INR 0 / IZR (2000 - 1))).
  set (s := 0.0001 + 4 * (INR 1999 / IZR (2000 - 1))).
  assert (Es : s = 4.0001).
  { unfold s. rewrite INR_IZR_INZ. change (Z.of_nat 1999) with 1999%Z.
    change (IZR (2000 - 1)) with 1999. lra. }
  assert (Hs : s <> 0) by (rewrite Es; lra).
  assert (HM : 1 / (PI * s ^ 4) <= 1).
  { pose proof PI2_1 as Hpi. assert (H4 : 1 <= s ^ 4) by (rewrite Es; lra).
    apply (Rmult_le_reg_r (PI * s ^ 4)); [nra |].
    unfold Rdiv. rewrite Rmult_assoc, Rinv_l by nra. nra. }
  pose proof (raw_mean_abs_bound 3 d s 0 0 ltac:(lia) Hs) as Hmean.
  pose proof (raw_val_abs_bound 3 d s 0 0 0 0 Hs) as H00.
  pose proof (raw_val_abs_bound 3 d s 0 0 0 1 Hs) as H01.
  pose proof (raw_val_abs_bound 3 d s 0 0 1 1 Hs) as H11.
  set (m := raw_mean 3 d s 0 0) in *.
  set (a := raw_val 3 d s 0 0 0 0) in *.
  set (b := raw_val 3 d s 0 0 0 1) in *.
  set (c := raw_val 3 d s 0 0 1 1) in *.
  apply Rabs_le_between in Hmean, H00, H01, H11.
  assert (Ha : Rabs (0.066 - (a - m)) <= 3) by (apply Rabs_le; lra).
  assert (Hb : Rabs (0.184 - (b - m)) <= 3) by (apply Rabs_le; lra).
  assert (Hc : Rabs (1 + (c - m)) <= 3) by (apply Rabs_le; lra).
  lra.
Qed.

(** X21: [find_reference] never raises and always keeps a candidate.  It
    ends with [min_diff] at least 0 and below its initial 100000; the
    reported [domain] and [sigma] both lie in [0.0001, 4.0001], and the
    reported kernel is the zero-centred 3 by 3 kernel the builder returns
    for them. *)
Theorem find_reference_completes :
  exists (st : search_state) (dom sig : R) (k : matrix),
    find_reference = Ok st /\
    0 <= min_diff st < 100000 /\
    values st = Some (dom, sig) /\ new_kernel st = Some k /\
    0.0001 <= dom <= 4.0001 /\ 0.0001 <= sig <= 4.0001 /\
    laplacian_of_gaussian_kernel 3 dom sig 0 0 true false false = Ok k.
Proof.
  destruct (search_loop_tracked (evaluate 2000) (evaluate_val 2000) 2000)
    as [st [Hrun [Hmin [_ Hwho]]]].
  { intros i j _ _. apply evaluate_eval. lia. }
  assert (Hlow : min_diff st < 100000).
  { eapply Rle_lt_trans; [| exact last_row_score].
    apply Hmin; [lia | lia | unfold earlier; lia]. }
  destruct Hwho as [-> | [a [b [Ha [Hb [_ [-> _]]]]]]].
  - cbn in Hlow. lra.
  - assert (Hsig : 0.0001 + 4 * (INR a / IZR (2000 - 1)) <> 0).
    { apply Rgt_not_eq. apply evaluate_sigma_pos. lia. }
    eexists _, _, _, _. split; [exact Hrun |]. split.
    + split; [| exact Hlow]. cbn [kept min_diff evaluate_val current_diff].
      repeat apply Rplus_le_le_0_compat; apply Rabs_pos.
    + split; [reflexivity |]. split; [reflexivity |].
      split; [apply evaluate_range; lia |].
      split; [apply evaluate_range; lia |].
      apply builder_centered; [lia | exact Hsig].
Qed.

(** * The sampled grid *)


